(** * Message board canister: entity rules, store contract and handlers

    A shallow embedding of [src/index.ts].  The canister keeps [Message]
    records in a stable key-value map and serves them through six Express
    routes.  Every handler runs to completion before the next one starts,
    so a handler is a function from the store to a new store and a response.

    Conventions of the embedding:
    - a TypeScript [string] is a [string] that holds the bytes of its UTF-8
      form (well-formed text); a character of ASCII text is one byte;
    - [String.prototype.toLowerCase] follows the Unicode tables, which are
      not among the sources: the handlers take it as a parameter
      [toLowerCase], and a theorem that needs a fact about it says so
      ([is_toLowerCase]); [toLowerCase_sample] is an instance for Basic
      Latin and Greek letters, used to run the handlers on sample inputs;
    - [undefined] is [None]; a field of type [T | null] that may also be
      left out is an [option (option T)];
    - a [Date] is its time value, an integer number of milliseconds;
    - the two sources of non-determinism, [ic.time()] and [uuidv4()], are
      read from a [Host] record handed to the handler. *)

From Stdlib Require Import ZArith Lia Ascii String Sorting.Sorted.
From Stdlib Require Import Floats.SpecFloat.
From stdpp Require Import gmap strings list fin_maps.

Local Open Scope Z_scope.

(* ===================================================================== *)
(** ** JavaScript primitives used by the source *)
(* ===================================================================== *)

(** Truthiness of a string: every string but the empty one. *)
Definition truthy (s : string) : bool :=
  match s with
  | EmptyString => false
  | String _ _ => true
  end.

(** [!x] for [x : string | undefined]. *)
Definition not_string (x : option string) : bool :=
  match x with
  | Some s => negb (truthy s)
  | None => true
  end.

(** [x || null] for [x : string | null | undefined]. *)
Definition or_null (x : option (option string)) : option string :=
  match x with
  | Some (Some s) => if truthy s then Some s else None
  | Some None => None
  | None => None
  end.

(** [String.prototype.startsWith]: [q] is read at the front of [s]. *)
Fixpoint startsWith (s q : string) {struct q} : bool :=
  match q, s with
  | EmptyString, _ => true
  | String _ _, EmptyString => false
  | String a q', String b s' => if Ascii.eqb a b then startsWith s' q' else false
  end.

(** [String.prototype.includes]: [q] is read at some position of [s]. *)
Fixpoint includes (s q : string) : bool :=
  startsWith s q ||
  match s with
  | EmptyString => false
  | String _ s' => includes s' q
  end.

(* ===================================================================== *)
(** ** Lower-casing *)
(* ===================================================================== *)

(** The capital letters of Basic Latin, A-Z, by their codes. *)
Definition is_ascii_capital (n : N) : bool :=
  ((65 <=? n) && (n <=? 90))%N.

(** The small letters of Basic Latin, a-z. *)
Definition is_ascii_small (n : N) : bool :=
  ((97 <=? n) && (n <=? 122))%N.

(** Lower-casing of one byte of ASCII text: a capital moves up by 32. *)
Definition lower_ascii_unit (c : ascii) : ascii :=
  let n := N_of_ascii c in
  if is_ascii_capital n then ascii_of_N (n + 32) else c.

(** Lower-casing of ASCII text, letter by letter.  This is what
    [toLowerCase] does on ASCII text, and the case folding of the route
    patterns of Express. *)
Fixpoint lower_ascii (s : string) : string :=
  match s with
  | EmptyString => EmptyString
  | String c s' => String (lower_ascii_unit c) (lower_ascii s')
  end.

(** ASCII text: every byte is below 128. *)
Fixpoint is_ascii (s : string) : bool :=
  match s with
  | EmptyString => true
  | String c s' => (N_of_ascii c <? 128)%N && is_ascii s'
  end.

(** Whether the text starts with a Basic Latin or Greek letter.  In UTF-8
    the Greek capitals U+0391-U+03A9 are the bytes CE 91 - CE A9, the small
    letters U+03B1-U+03BF are CE B1 - CE BF and U+03C0-U+03C9 are
    CF 80 - CF 89. *)
Definition starts_with_letter (s : string) : bool :=
  match s with
  | EmptyString => false
  | String c rest =>
      let n := N_of_ascii c in
      if is_ascii_capital n || is_ascii_small n then true
      else if (n =? 206)%N then
        match rest with
        | String d _ =>
            let k := N_of_ascii d in
            ((145 <=? k) && (k <=? 169) && negb (k =? 162)
             || (177 <=? k) && (k <=? 191))%N
        | EmptyString => false
        end
      else if (n =? 207)%N then
        match rest with
        | String d _ =>
            let k := N_of_ascii d in ((128 <=? k) && (k <=? 137))%N
        | EmptyString => false
        end
      else false
  end.

(** Lower-casing of text in Basic Latin and Greek, as JavaScript does it:
    a capital becomes its small letter, and a capital sigma (CE A3) becomes
    the final sigma (CF 82) when it follows a letter and no letter follows
    it, the sigma (CF 83) otherwise.  [after_letter] tells whether the
    text read so far ends with a letter.  Other bytes are kept. *)
Fixpoint lower_sample (after_letter : bool) (s : string) : string :=
  match s with
  | EmptyString => EmptyString
  | String c rest =>
      let n := N_of_ascii c in
      if is_ascii_capital n then
        String (ascii_of_N (n + 32)) (lower_sample true rest)
      else if is_ascii_small n then String c (lower_sample true rest)
      else if (n =? 206)%N then
        match rest with
        | String d rest' =>
            let k := N_of_ascii d in
            if (k =? 163)%N then
              if after_letter && negb (starts_with_letter rest') then
                String (ascii_of_N 207)
                  (String (ascii_of_N 130) (lower_sample true rest'))
              else
                String (ascii_of_N 207)
                  (String (ascii_of_N 131) (lower_sample true rest'))
            else if ((145 <=? k) && (k <=? 159))%N then
              String c (String (ascii_of_N (k + 32)) (lower_sample true rest'))
            else if ((160 <=? k) && (k <=? 169) && negb (k =? 162))%N then
              String (ascii_of_N 207)
                (String (ascii_of_N (k - 32)) (lower_sample true rest'))
            else if ((177 <=? k) && (k <=? 191))%N then
              String c (String d (lower_sample true rest'))
            else String c (String d (lower_sample false rest'))
        | EmptyString => String c EmptyString
        end
      else if (n =? 207)%N then
        match rest with
        | String d rest' =>
            let k := N_of_ascii d in
            String c
              (String d (lower_sample ((128 <=? k) && (k <=? 137))%N rest'))
        | EmptyString => String c EmptyString
        end
      else String c (lower_sample false rest)
  end.

(** An instance of [toLowerCase]: JavaScript's lower-casing on text made of
    Basic Latin and Greek letters and of characters without case. *)
Definition toLowerCase_sample (s : string) : string := lower_sample false s.

(** What is assumed of [String.prototype.toLowerCase]: on ASCII text it
    lower-cases letter by letter, and it never turns a non-empty string
    into the empty one. *)
Definition is_toLowerCase (toLowerCase : string -> string) : Prop :=
  (forall s, is_ascii s = true -> toLowerCase s = lower_ascii s)
  /\ (forall s, toLowerCase s = EmptyString -> s = EmptyString).

(* ===================================================================== *)
(** ** The clock: [getCurrentDate] *)
(* ===================================================================== *)

(** [Number(n)] for a bigint [n]: the binary64 value nearest to [n],
    ties to even. *)
Definition Number (n : Z) : spec_float := binary_normalize 53 1024 n 0 false.

(** The [/] of two Numbers. *)
Definition Number_div (x y : spec_float) : spec_float := SFdiv 53 1024 x y.

(** [Math.floor] of a finite Number, as an integer.  A finite binary64
    value is [m * 2^e]; the quotient of a 64-bit reading by a million is
    always finite, and the remaining cases are mapped to 0. *)
Definition Math_floor (x : spec_float) : Z :=
  match x with
  | S754_finite s m e =>
      let v := if s then Z.neg m else Z.pos m in
      if 0 <=? e then v * 2 ^ e else v / 2 ^ (- e)
  | _ => 0
  end.

(** [getCurrentDate], with the value of [ic.time()] (nanoseconds, a 64-bit
    unsigned bigint) as its argument:
    [new Date(Math.floor(Number(ic.time()) / 1_000_000))]. *)
Definition getCurrentDate (ic_time : Z) : Z :=
  let timestamp := Number ic_time in
  Math_floor (Number_div timestamp (Number 1000000)).

(** The host: what [ic.time()] and [uuidv4()] return during one call. *)
Record Host := {
  ic_time : Z;
  uuidv4 : string
}.

(* ===================================================================== *)
(** ** The entity: class [Message] *)
(* ===================================================================== *)

Record Message := {
  id : string;
  title : string;
  body : string;
  attachmentURL : option string;
  createdAt : Z;
  updatedAt : option Z
}.

(** [Partial<Message>]: every data field of [Message] may be left out. *)
Record PartialMessage := {
  p_id : option string;
  p_title : option string;
  p_body : option string;
  p_attachmentURL : option (option string);
  p_createdAt : option Z;
  p_updatedAt : option (option Z)
}.

(** A thrown [Error] with its message. *)
Inductive Thrown := Error (message : string).

Definition required_message : string :=
  "Both 'title' and 'body' are required.".

(** [Message.create]. *)
Definition create (h : Host) (data : PartialMessage) : Thrown + Message :=
  if not_string (p_title data) || not_string (p_body data) then
    inl (Error required_message)
  else
    match p_title data, p_body data with
    | Some t, Some b =>
        inr {| id := uuidv4 h;
               title := t;
               body := b;
               attachmentURL := or_null (p_attachmentURL data);
               createdAt := getCurrentDate (ic_time h);
               updatedAt := None |}
    | _, _ => inl (Error required_message)
    end.

Definition set_title (t : string) (m : Message) : Message :=
  {| id := id m; title := t; body := body m;
     attachmentURL := attachmentURL m;
     createdAt := createdAt m; updatedAt := updatedAt m |}.

Definition set_body (b : string) (m : Message) : Message :=
  {| id := id m; title := title m; body := b;
     attachmentURL := attachmentURL m;
     createdAt := createdAt m; updatedAt := updatedAt m |}.

Definition set_attachmentURL (a : option string) (m : Message) : Message :=
  {| id := id m; title := title m; body := body m;
     attachmentURL := a;
     createdAt := createdAt m; updatedAt := updatedAt m |}.

Definition set_updatedAt (u : option Z) (m : Message) : Message :=
  {| id := id m; title := title m; body := body m;
     attachmentURL := attachmentURL m;
     createdAt := createdAt m; updatedAt := u |}.

(** [if (x !== undefined) this.f = x]. *)
Definition assign_if_defined {A : Type} (x : option A)
    (set : A -> Message -> Message) (this : Message) : Message :=
  match x with
  | Some v => set v this
  | None => this
  end.

(** [Message.prototype.update]: the three assignments in order, then the
    stamp; the receiver is returned. *)
Definition update (h : Host) (this : Message) (data : PartialMessage) : Message :=
  let this := assign_if_defined (p_title data) set_title this in
  let this := assign_if_defined (p_body data) set_body this in
  let this := assign_if_defined (p_attachmentURL data) set_attachmentURL this in
  set_updatedAt (Some (getCurrentDate (ic_time h))) this.

(* ===================================================================== *)
(** ** The store: [messagesStorage] *)
(* ===================================================================== *)

(** The optional result of the store, as the PUT handler reads it: the
    object [{Some: v}] or the object [{None: null}]. *)
Inductive Opt :=
| OptSome (value : Message)
| OptNone.

(** The object that stands for an optional record. *)
Definition Opt_of (x : option Message) : Opt :=
  match x with
  | Some value => OptSome value
  | None => OptNone
  end.

(** [!x] for an [Opt] object [x]: an object is truthy, whatever it holds. *)
Definition not_Opt (x : Opt) : bool := false.

(** [x.Some]: the record of [{Some: v}], [undefined] on [{None: null}]. *)
Definition Opt_Some (x : Opt) : option Message :=
  match x with
  | OptSome value => Some value
  | OptNone => None
  end.

(** [!v] for [v] a record or [undefined]. *)
Definition not_record (v : option Message) : bool :=
  match v with
  | Some _ => false
  | None => true
  end.

(** The source creates the store with [StableBTreeMap<string, Message>(0)]
    and uses four of its methods.  The class belongs to the azle package,
    whose code is not among the sources; its methods follow the store
    contract of the specification, over a finite map from ids to records,
    and hand out their optional results as [Opt] objects. *)
Module StableBTreeMap.

(** Modelled from the spec: [insert(id, message)] of the absent
    [StableBTreeMap]; it "inserts or overwrites the record at id" and
    always succeeds. *)
Definition insert (k : string) (v : Message) (s : gmap string Message)
    : gmap string Message :=
  <[k := v]> s.

(** Modelled from the spec: [get(id)] of the absent [StableBTreeMap]; it
    "returns the current record at id, or an explicit absent result", as
    an [Opt] object. *)
Definition get (k : string) (s : gmap string Message) : Opt :=
  Opt_of (s !! k).

(** Modelled from the spec: [remove(id)] of the absent [StableBTreeMap]; it
    "removes and returns the record that was stored at id, or absent if
    none existed", as an [Opt] object. *)
Definition remove (k : string) (s : gmap string Message)
    : Opt * gmap string Message :=
  (Opt_of (s !! k), delete k s).

(** Modelled from the spec: [values()] of the absent [StableBTreeMap]; it
    "returns all currently stored records", in an unspecified order. *)
Definition values (s : gmap string Message) : list Message :=
  (map_to_list s).*2.

End StableBTreeMap.

(** Modelled from the spec: "any value returned to a caller is a snapshot".
    The record that the store hands out is rebuilt from the stored bytes:
    it has the fields of the record and none of the methods of class
    [Message].  On such a record [message.update] is [undefined], and the
    call [message.update(req.body)] throws a TypeError with this message. *)
Definition update_of_snapshot (h : Host) (message : Message)
    (data : PartialMessage) : Thrown + Message :=
  inl (Error "message.update is not a function").

(* ===================================================================== *)
(** ** The route handlers *)
(* ===================================================================== *)

(** What [res.json] is given. *)
Inductive Json :=
| JsonMessage (m : Message)
| JsonMessages (ms : list Message)
| JsonOpt (o : Opt)
| JsonError (error : string).

Record Response := {
  status : Z;
  json : Json
}.

(** [res.json(x)] on a fresh response: status 200. *)
Definition res_json (x : Json) : Response :=
  {| status := 200; json := x |}.

(** [sendError(res, message, status)]; the source's default status is 400
    and is written out at each call that omits it. *)
Definition sendError (message : string) (status : Z) : Response :=
  {| status := status; json := JsonError message |}.

(** The template string [`Message with id=${id} not found.`]. *)
Definition not_found_message (req_id : string) : string :=
  "Message with id=" +:+ req_id +:+ " not found.".

Definition query_required_message : string :=
  "Query parameter is required.".

(** [app.post("/messages")]. *)
Definition post_messages (h : Host) (req_body : PartialMessage)
    (s : gmap string Message) : gmap string Message * Response :=
  match create h req_body with
  | inr message =>
      (StableBTreeMap.insert (id message) message s,
       res_json (JsonMessage message))
  | inl (Error error_message) => (s, sendError error_message 400)
  end.

(** [app.get("/messages")]. *)
Definition get_messages (s : gmap string Message)
    : gmap string Message * Response :=
  (s, res_json (JsonMessages (StableBTreeMap.values s))).

(** [app.get("/messages/:id")]: [message] is the [Opt] object of the
    store, and it is what [res.json] is given. *)
Definition get_message (req_id : string) (s : gmap string Message)
    : gmap string Message * Response :=
  let message := StableBTreeMap.get req_id s in
  if not_Opt message then (s, sendError (not_found_message req_id) 404)
  else (s, res_json (JsonOpt message)).

(** [app.put("/messages/:id")]: the record read from the store is asked to
    update itself inside [try]; what is thrown is answered in [catch]. *)
Definition put_message (h : Host) (req_id : string) (req_body : PartialMessage)
    (s : gmap string Message) : gmap string Message * Response :=
  let messageOpt := StableBTreeMap.get req_id s in
  if not_Opt messageOpt || not_record (Opt_Some messageOpt) then
    (s, sendError (not_found_message req_id) 404)
  else
    match Opt_Some messageOpt with
    | Some message =>
        match update_of_snapshot h message req_body with
        | inr updatedMessage =>
            (StableBTreeMap.insert (id updatedMessage) updatedMessage s,
             res_json (JsonMessage updatedMessage))
        | inl (Error error_message) => (s, sendError error_message 400)
        end
    | None => (s, sendError (not_found_message req_id) 404)
    end.

(** [app.delete("/messages/:id")]: [deletedMessage] is the [Opt] object of
    the store, and it is what [res.json] is given. *)
Definition delete_message (req_id : string) (s : gmap string Message)
    : gmap string Message * Response :=
  let '(deletedMessage, s') := StableBTreeMap.remove req_id s in
  if not_Opt deletedMessage then
    (s', sendError (not_found_message req_id) 404)
  else (s', res_json (JsonOpt deletedMessage)).

(** One run of a handler. *)
Inductive Call :=
| Post (req_body : PartialMessage)
| GetAll
| GetOne (req_id : string)
| Put (req_id : string) (req_body : PartialMessage)
| Delete (req_id : string)
| Search (req_query : option string).

(* ===================================================================== *)
(** ** The route table *)
(* ===================================================================== *)

(** The source registers its six routes on one Express application, in
    this order: POST /messages, GET /messages, GET /messages/:id,
    PUT /messages/:id, DELETE /messages/:id, GET /messages/search.
    Express offers a request to the routes in the order of registration
    and runs the first one whose method and path match; none of the
    handlers passes the request on.  A path is taken as the list of its
    segments (for a path with no doubled or trailing slash); a literal
    segment matches up to case (the default of Express) and a named segment
    such as [:id] matches any non-empty segment. *)
Inductive Verb := VGet | VPost | VPut | VDelete.

Inductive Segment :=
| Literal (name : string)
| Named.

Inductive Handler :=
| CreateHandler
| ListHandler
| GetHandler
| UpdateHandler
| DeleteHandler
| SearchHandler.

Record Request := {
  req_verb : Verb;
  req_path : list string;
  req_query_query : option string;
  req_json : PartialMessage
}.

Definition verb_eqb (a b : Verb) : bool :=
  match a, b with
  | VGet, VGet | VPost, VPost | VPut, VPut | VDelete, VDelete => true
  | _, _ => false
  end.

(** The routes, in the order of their registration in the source. *)
Definition routes : list (Verb * list Segment * Handler) :=
  [ (VPost, [Literal "messages"], CreateHandler);
    (VGet, [Literal "messages"], ListHandler);
    (VGet, [Literal "messages"; Named], GetHandler);
    (VPut, [Literal "messages"; Named], UpdateHandler);
    (VDelete, [Literal "messages"; Named], DeleteHandler);
    (VGet, [Literal "messages"; Literal "search"], SearchHandler) ].

(** Matching of a path against a pattern; the result is the value of the
    parameter, when the pattern has one. *)
Fixpoint match_path (pattern : list Segment) (path : list string)
    : option (option string) :=
  match pattern, path with
  | [], [] => Some None
  | Literal name :: pattern', segment :: path' =>
      if String.eqb (lower_ascii name) (lower_ascii segment)
      then match_path pattern' path'
      else None
  | Named :: pattern', segment :: path' =>
      if truthy segment then
        match match_path pattern' path' with
        | Some _ => Some (Some segment)
        | None => None
        end
      else None
  | _, _ => None
  end.

(** The first route, in registration order, that matches the request. *)
Fixpoint first_match (table : list (Verb * list Segment * Handler))
    (req : Request) : option (Handler * option string) :=
  match table with
  | [] => None
  | (verb, pattern, handler) :: table' =>
      if verb_eqb verb (req_verb req) then
        match match_path pattern (req_path req) with
        | Some param => Some (handler, param)
        | None => first_match table' req
        end
      else first_match table' req
  end.

(** The handler run that a request leads to, if any route matches. *)
Definition dispatch (req : Request) : option Call :=
  match first_match routes req with
  | Some (CreateHandler, _) => Some (Post (req_json req))
  | Some (ListHandler, _) => Some GetAll
  | Some (GetHandler, Some req_id) => Some (GetOne req_id)
  | Some (UpdateHandler, Some req_id) => Some (Put req_id (req_json req))
  | Some (DeleteHandler, Some req_id) => Some (Delete req_id)
  | Some (SearchHandler, _) => Some (Search (req_query_query req))
  | _ => None
  end.

(* ===================================================================== *)
(** ** The search handler and the runs of the handlers *)
(* ===================================================================== *)

Section Program.

(** [String.prototype.toLowerCase], a built-in of the language that is not
    among the sources. *)
Variable toLowerCase : string -> string.

(** The filter of the search handler: title or body, lower-cased, includes
    the (already lower-cased) query. *)
Definition search_filter (query : string) (message : Message) : bool :=
  includes (toLowerCase (title message)) query
  || includes (toLowerCase (body message)) query.

(** [app.get("/messages/search")], with [req.query.query] as a string or
    left out. *)
Definition search_messages (req_query : option string)
    (s : gmap string Message) : gmap string Message * Response :=
  let query := toLowerCase <$> req_query in
  if not_string query then (s, sendError query_required_message 400)
  else
    match query with
    | Some query =>
        let results :=
          List.filter (search_filter query) (StableBTreeMap.values s) in
        (s, res_json (JsonMessages results))
    | None => (s, sendError query_required_message 400)
    end.

Definition handle (h : Host) (c : Call) (s : gmap string Message)
    : gmap string Message * Response :=
  match c with
  | Post req_body => post_messages h req_body s
  | GetAll => get_messages s
  | GetOne req_id => get_message req_id s
  | Put req_id req_body => put_message h req_id req_body s
  | Delete req_id => delete_message req_id s
  | Search req_query => search_messages req_query s
  end.

(** The store after a sequence of handler runs, one at a time, each with
    its own host readings. *)
Fixpoint run (calls : list (Host * Call)) (s : gmap string Message)
    : gmap string Message :=
  match calls with
  | [] => s
  | (h, c) :: calls' => run calls' (handle h c s).1
  end.

(* ===================================================================== *)
(** ** Notions of the specification *)
(* ===================================================================== *)

(** A required field is missing or empty. *)
Definition missing_or_empty (x : option string) : Prop :=
  x = None \/ x = Some EmptyString.

(** [x] is a capital of Basic Latin (codes 65 to 90) and [y] is its small
    letter, 32 codes further. *)
Definition capital_and_small (x y : ascii) : Prop :=
  (65 <= N_of_ascii x <= 90)%N /\ N_of_ascii y = (N_of_ascii x + 32)%N.

(** Two bytes are the same letter up to case: they are equal, or one is a
    capital and the other its small letter. *)
Definition same_letter (x y : ascii) : Prop :=
  x = y \/ capital_and_small x y \/ capital_and_small y x.

(** Two strings of the same length whose bytes agree up to case. *)
Fixpoint equal_ignoring_case (a b : string) : Prop :=
  match a, b with
  | EmptyString, EmptyString => True
  | String x a', String y b' => same_letter x y /\ equal_ignoring_case a' b'
  | _, _ => False
  end.

(** [s] contains [q] case-insensitively: some stretch of [s] equals [q] up
    to case. *)
Definition contains_case_insensitively (s q : string) : Prop :=
  exists before stretch after,
    s = before +:+ stretch +:+ after /\ equal_ignoring_case stretch q.

(** The message matches the search: title or body contains the query
    case-insensitively. *)
Definition matches (q : string) (m : Message) : Prop :=
  contains_case_insensitively (title m) q
  \/ contains_case_insensitively (body m) q.

(** [s] contains [q]: [q] is a stretch of [s]. *)
Definition contains (s q : string) : Prop :=
  exists before after, s = before +:+ q +:+ after.

(** The lower-cased title or body of the message contains the lower-cased
    query. *)
Definition matches_lowered (q : string) (m : Message) : Prop :=
  contains (toLowerCase (title m)) (toLowerCase q)
  \/ contains (toLowerCase (body m)) (toLowerCase q).

(** The title and the body of the message are ASCII text. *)
Definition ascii_text (m : Message) : Prop :=
  is_ascii (title m) = true /\ is_ascii (body m) = true.

(** [r] is exactly the part of [l] that satisfies [P], in the order and
    with the repetitions of [l]. *)
Inductive subset_where {A : Type} (P : A -> Prop) : list A -> list A -> Prop :=
| subset_where_nil : subset_where P [] []
| subset_where_keep x l r :
    P x -> subset_where P l r -> subset_where P (x :: l) (x :: r)
| subset_where_skip x l r :
    ~ P x -> subset_where P l r -> subset_where P (x :: l) r.

(** The invariant on the two stamps of a record. *)
Definition stamps_ordered (m : Message) : Prop :=
  forall u, updatedAt m = Some u -> createdAt m <= u.

(** The later of the two stamps of a record with ordered stamps. *)
Definition last_stamp (m : Message) : Z :=
  default (createdAt m) (updatedAt m).

(** The message after a sequence of updates, each with the host readings
    of its time. *)
Fixpoint updated (m : Message) (steps : list (Host * PartialMessage))
    : Message :=
  match steps with
  | [] => m
  | (h, data) :: steps' => updated (update h m data) steps'
  end.

(** The clock values given to a sequence of updates, in order. *)
Definition update_stamps (steps : list (Host * PartialMessage)) : list Z :=
  (fun hd => getCurrentDate (ic_time hd.1)) <$> steps.

(** The values of [ic.time()] during a sequence of updates, in order. *)
Definition update_times (steps : list (Host * PartialMessage)) : list Z :=
  (fun hd => ic_time hd.1) <$> steps.

(** Every record is stored under its own id. *)
Definition keys_are_ids (s : gmap string Message) : Prop :=
  forall k m, s !! k = Some m -> id m = k.

(** The input of a second update laid over the input of a first one: a
    field carried by the second wins, otherwise the first is kept. *)
Definition overlay (first second : PartialMessage) : PartialMessage :=
  {| p_id := None;
     p_title := match p_title second with
                | Some t => Some t
                | None => p_title first
                end;
     p_body := match p_body second with
               | Some b => Some b
               | None => p_body first
               end;
     p_attachmentURL := match p_attachmentURL second with
                        | Some a => Some a
                        | None => p_attachmentURL first
                        end;
     p_createdAt := None;
     p_updatedAt := None |}.

(** The handler run [(h, c)] creates a record: it is a POST whose input
    passes validation, and [m0] is the record built. *)
Definition creates (h : Host) (c : Call) (m0 : Message) : Prop :=
  exists req_body, c = Post req_body /\ create h req_body = inr m0.

(** The response is an error response: its body is [{error: ...}]. *)
Definition is_error (r : Response) : Prop :=
  exists error, json r = JsonError error.

(** A value of [ic.time()]: an unsigned 64-bit integer. *)
Definition is_nat64 (t : Z) : Prop := 0 <= t < 2 ^ 64.

(** The millisecond truncation of a nanosecond reading, in exact integer
    arithmetic. *)
Definition millisecond_truncation (t : Z) : Z := t / 1000000.

(* ===================================================================== *)
(** ** Arithmetic of binary64 rounding *)
(* ===================================================================== *)

(** The integer nearest to [N / D], ties to the even one. *)
Definition rne (N D : Z) : Z :=
  let q := N / D in
  match 2 * (N mod D) ?= D with
  | Lt => q
  | Gt => q + 1
  | Eq => if Z.even q then q else q + 1
  end.

(** Where [N / D] lies between [N / D] rounded down and the next integer:
    on it, below the middle, in the middle or above it. *)
Definition loc_of (N D : Z) : location :=
  if N mod D =? 0 then loc_Exact else loc_Inexact (2 * (N mod D) ?= D).

(** A shifted mantissa with its two sticky bits stands for [N / D]. *)
Definition represents (mrs : shr_record) (N D : Z) : Prop :=
  shr_m mrs = N / D /\ loc_of_shr_record mrs = loc_of N D.

(** The shape of a positive normal binary64 value with a 53-bit mantissa. *)
Definition normal_float (f : spec_float) (m e : Z) : Prop :=
  2 ^ 52 <= m < 2 ^ 53 /\ f = S754_finite false (Z.to_pos m) e.

(** The mantissa of 1,000,000 as a binary64 value: 10^6 * 2^33. *)
Definition million_mantissa : Z := 8589934592000000.

(** The value of [Number t]: [t] itself below 2^53, otherwise [t] rounded
    to a multiple of [2^n] where [t] has [53 + n] binary digits. *)
Definition rounded_reading (t T : Z) : Prop :=
  (t < 2 ^ 53 /\ T = t)
  \/ (exists n, 1 <= n <= 11 /\ 2 ^ (52 + n) <= t < 2 ^ (53 + n)
                /\ T = rne t (2 ^ n) * 2 ^ n).


(* ===================================================================== *)
(** ** Sample inputs *)
(* ===================================================================== *)

(** [{title: ""}]. *)
Definition empty_title : PartialMessage :=
  {| p_id := None; p_title := Some EmptyString; p_body := None;
     p_attachmentURL := None; p_createdAt := None; p_updatedAt := None |}.

(** [{body: ""}]. *)
Definition empty_body : PartialMessage :=
  {| p_id := None; p_title := None; p_body := Some EmptyString;
     p_attachmentURL := None; p_createdAt := None; p_updatedAt := None |}.

(** [{id: "mine", title: "Hello", body: "World", createdAt: 0,
    updatedAt: 0}]: an input that tries to choose its identity and stamps. *)
Definition hello_world_forged : PartialMessage :=
  {| p_id := Some "mine"%string; p_title := Some "Hello"%string;
     p_body := Some "World"%string; p_attachmentURL := None;
     p_createdAt := Some 0; p_updatedAt := Some (Some 0) |}.

(** Two stored records with bodies "cat sat" and "dog ran". *)
Definition cat_sat : Message :=
  {| id := "id-1"%string; title := "First"%string; body := "cat sat"%string;
     attachmentURL := None; createdAt := 1700000000000; updatedAt := None |}.

Definition dog_ran : Message :=
  {| id := "id-2"%string; title := "Second"%string; body := "dog ran"%string;
     attachmentURL := None; createdAt := 1700000000001; updatedAt := None |}.

Definition cat_and_dog : gmap string Message :=
  <["id-1"%string := cat_sat]> (<["id-2"%string := dog_ran]> ∅).

(** [{title: "Hello", body: "World"}]. *)
Definition hello_world : PartialMessage :=
  {| p_id := None; p_title := Some "Hello"%string; p_body := Some "World"%string;
     p_attachmentURL := None; p_createdAt := None; p_updatedAt := None |}.

(** [{title: "Hello", body: "World", attachmentURL: ""}]. *)
Definition hello_world_empty_attachment : PartialMessage :=
  {| p_id := None; p_title := Some "Hello"%string; p_body := Some "World"%string;
     p_attachmentURL := Some (Some EmptyString);
     p_createdAt := None; p_updatedAt := None |}.

(** [{body: "World!"}]. *)
Definition new_body : PartialMessage :=
  {| p_id := None; p_title := None; p_body := Some "World!"%string;
     p_attachmentURL := None; p_createdAt := None; p_updatedAt := None |}.

(** Two hosts, one millisecond apart. *)
Definition host_1 : Host :=
  {| ic_time := 1700000000000000000; uuidv4 := "id-1"%string |}.

Definition host_2 : Host :=
  {| ic_time := 1700000000001000000; uuidv4 := "id-2"%string |}.

(** A POST followed by a PUT addressed to the record created. *)
Definition create_then_update : list (Host * Call) :=
  [(host_1, Post hello_world); (host_2, Put "id-1"%string new_body)].

(** One update, with [{body: "World!"}], one millisecond after [host_1]. *)
Definition one_update : list (Host * PartialMessage) :=
  [(host_2, new_body)].

(** The message [hello_world_created] after [one_update]. *)
Definition hello_world_updated : Message :=
  {| id := "id-1"%string; title := "Hello"%string; body := "World!"%string;
     attachmentURL := None;
     createdAt := 1700000000000; updatedAt := Some 1700000000001 |}.

(** [{title: "Hi", attachmentURL: null}]. *)
Definition new_title_no_attachment : PartialMessage :=
  {| p_id := None; p_title := Some "Hi"%string; p_body := None;
     p_attachmentURL := Some None; p_createdAt := None; p_updatedAt := None |}.

(** [{title: "Hello", body: "World", attachmentURL: "http://x"}]. *)
Definition hello_world_attached : PartialMessage :=
  {| p_id := None; p_title := Some "Hello"%string; p_body := Some "World"%string;
     p_attachmentURL := Some (Some "http://x"%string);
     p_createdAt := None; p_updatedAt := None |}.

(** The record that [create] builds from [hello_world] on [host_1]. *)
Definition hello_world_created : Message :=
  {| id := "id-1"%string; title := "Hello"%string; body := "World"%string;
     attachmentURL := None;
     createdAt := 1700000000000; updatedAt := None |}.

(** The store that holds [hello_world_created] only. *)
Definition store_with_hello : gmap string Message :=
  <["id-1"%string := hello_world_created]> ∅.

(** A PUT and a listing, neither of which creates a record. *)
Definition put_then_list : list (Host * Call) :=
  [(host_2, Put "id-1"%string new_body); (host_2, GetAll)].

(** The record that [create] builds from [hello_world_attached] on
    [host_1]. *)
Definition hello_world_attached_created : Message :=
  {| id := "id-1"%string; title := "Hello"%string; body := "World"%string;
     attachmentURL := Some "http://x"%string;
     createdAt := 1700000000000; updatedAt := None |}.

(** A record whose title is a capital alpha followed by a capital sigma. *)
Definition alpha_sigma : Message :=
  {| id := "id-3"%string; title := "ΑΣ"%string; body := "news"%string;
     attachmentURL := None; createdAt := 1700000000002; updatedAt := None |}.

Definition store_with_alpha_sigma : gmap string Message :=
  <["id-3"%string := alpha_sigma]> ∅.

(** The query made of a capital sigma. *)
Definition capital_sigma : string := "Σ".

(** A clock reading on a millisecond boundary that [Number] rounds down. *)
Definition reading_on_boundary : Z := 1700000000002000000.

(** The request [GET /messages/search?query=at]. *)
Definition search_request : Request :=
  {| req_verb := VGet; req_path := ["messages"; "search"]%string;
     req_query_query := Some "at"%string; req_json := hello_world |}.

(** A clock reading one nanosecond before a millisecond boundary. *)
Definition reading_before_boundary : Z := 1699999999999999999.

(* ===================================================================== *)
(** ** The entity rules *)
(* ===================================================================== *)

Section Entity.

Variable h : Host.

Lemma not_string_missing_or_empty (x : option string) :
  not_string x = true <-> missing_or_empty x.
Proof.
  unfold missing_or_empty.
  destruct x as [[|c s]|]; simpl; split; intros H; try done; auto.
  - destruct H as [H|H]; discriminate H.
Qed.

Lemma create_throws_iff (data : PartialMessage) :
  create h data = inl (Error required_message)
  <-> not_string (p_title data) || not_string (p_body data) = true.
Proof.
  unfold create.
  destruct (p_title data) as [[|c t]|], (p_body data) as [[|d b]|];
    simpl; split; intros H; done.
Qed.

Lemma create_returns_inv (data : PartialMessage) (m : Message) :
  create h data = inr m ->
  exists t b,
    p_title data = Some t /\ p_body data = Some b
    /\ truthy t = true /\ truthy b = true
    /\ m = {| id := uuidv4 h; title := t; body := b;
              attachmentURL := or_null (p_attachmentURL data);
              createdAt := getCurrentDate (ic_time h);
              updatedAt := None |}.
Proof.
  unfold create.
  destruct (p_title data) as [[|c t]|], (p_body data) as [[|d b]|];
    simpl; intros H; try discriminate H.
  injection H as <-. eexists _, _. repeat split; reflexivity.
Qed.

(** C1. [create] throws its validation error exactly when the title or
    the body of the input is missing or empty.  Otherwise it returns a
    message whose id is the identifier just generated, whose title and body
    are the supplied ones, whose [createdAt] is the current clock value and
    whose [updatedAt] is absent. *)
Theorem create_validates_then_builds (data : PartialMessage) :
  (create h data = inl (Error required_message)
   <-> missing_or_empty (p_title data) \/ missing_or_empty (p_body data))
  /\ (~ (missing_or_empty (p_title data) \/ missing_or_empty (p_body data))
      -> exists m, create h data = inr m)
  /\ (forall m, create h data = inr m ->
        id m = uuidv4 h
        /\ p_title data = Some (title m)
        /\ p_body data = Some (body m)
        /\ createdAt m = getCurrentDate (ic_time h)
        /\ updatedAt m = None).
Proof.
  assert (Hiff : create h data = inl (Error required_message)
                 <-> missing_or_empty (p_title data)
                     \/ missing_or_empty (p_body data)).
  { rewrite create_throws_iff, orb_true_iff.
    by rewrite !not_string_missing_or_empty. }
  split; [exact Hiff|]. split.
  - intros Hok. destruct (create h data) as [[msg]|m] eqn:E; [|by exists m].
    exfalso. apply Hok, Hiff. revert E. unfold create.
    by repeat case_match.
  - intros m Hm. apply create_returns_inv in Hm
      as (t & b & Ht & Hb & _ & _ & ->). by simpl.
Qed.

(** C2. [update] overwrites each of title, body and attachmentURL that the
    input carries (a carried [null] attachment clears the field), keeps the
    ones the input leaves out, never touches [id] and [createdAt], and sets
    [updatedAt] to the current clock value in every case. *)
Theorem update_merges_fields (m : Message) (data : PartialMessage) :
  let m' := update h m data in
  (forall t, p_title data = Some t -> title m' = t)
  /\ (p_title data = None -> title m' = title m)
  /\ (forall b, p_body data = Some b -> body m' = b)
  /\ (p_body data = None -> body m' = body m)
  /\ (forall a, p_attachmentURL data = Some a -> attachmentURL m' = a)
  /\ (p_attachmentURL data = Some None -> attachmentURL m' = None)
  /\ (p_attachmentURL data = None -> attachmentURL m' = attachmentURL m)
  /\ id m' = id m
  /\ createdAt m' = createdAt m
  /\ updatedAt m' = Some (getCurrentDate (ic_time h)).
Proof.
  unfold update.
  destruct (p_title data) as [t|], (p_body data) as [b|],
    (p_attachmentURL data) as [a|]; simpl;
    repeat split; intros; simplify_eq; reflexivity.
Qed.

Lemma create_builds (data : PartialMessage) (t b : string) :
  p_title data = Some t -> p_body data = Some b ->
  t <> EmptyString -> b <> EmptyString ->
  create h data
  = inr {| id := uuidv4 h; title := t; body := b;
           attachmentURL := or_null (p_attachmentURL data);
           createdAt := getCurrentDate (ic_time h);
           updatedAt := None |}.
Proof.
  intros Ht Hb Hte Hbe. unfold create. rewrite Ht, Hb.
  by destruct t, b.
Qed.

(** C9. When the input of [create] carries the empty string as its
    attachmentURL, [create] returns what it returns for the same input
    without that field; and when the title and the body of the input are
    non-empty, a message is built, with these title and body and with no
    attachment. *)
Theorem create_empty_attachment_is_absent (data data' : PartialMessage) :
  p_attachmentURL data = Some (Some EmptyString) ->
  p_attachmentURL data' = None ->
  p_title data' = p_title data ->
  p_body data' = p_body data ->
  create h data = create h data'
  /\ (forall m, create h data = inr m -> attachmentURL m = None)
  /\ (forall t b,
        p_title data = Some t -> p_body data = Some b ->
        t <> EmptyString -> b <> EmptyString ->
        exists m, create h data = inr m
                  /\ attachmentURL m = None
                  /\ title m = t /\ body m = b).
Proof.
  intros Ha Ha' Ht Hb. split; [|split].
  - unfold create. by rewrite Ha, Ha', Ht, Hb.
  - intros m Hm. apply create_returns_inv in Hm
      as (t & b & _ & _ & _ & _ & ->). simpl. by rewrite Ha.
  - intros t b Ht' Hb' Hte Hbe. eexists. split.
    + by apply create_builds.
    + simpl. by rewrite Ha.
Qed.

(** C10. [create] reads only the title, body and attachmentURL of its
    input: two inputs that agree on these give the same result, whatever
    their [id], [createdAt] and [updatedAt]; the message built always takes
    its id from the generator and its [createdAt] from the clock, with
    [updatedAt] absent; and such a message is built from every input whose
    title and body are non-empty, whatever else the input carries. *)
Theorem create_ignores_identity_and_stamps :
  (forall data data',
      p_title data = p_title data' ->
      p_body data = p_body data' ->
      p_attachmentURL data = p_attachmentURL data' ->
      create h data = create h data')
  /\ (forall data m,
        create h data = inr m ->
        id m = uuidv4 h
        /\ createdAt m = getCurrentDate (ic_time h)
        /\ updatedAt m = None)
  /\ (forall data t b,
        p_title data = Some t -> p_body data = Some b ->
        t <> EmptyString -> b <> EmptyString ->
        exists m, create h data = inr m
                  /\ id m = uuidv4 h
                  /\ createdAt m = getCurrentDate (ic_time h)
                  /\ updatedAt m = None).
Proof.
  split; [|split].
  - intros data data' Ht Hb Ha. unfold create. by rewrite Ht, Hb, Ha.
  - intros data m Hm. apply create_returns_inv in Hm
      as (t & b & _ & _ & _ & _ & ->). by simpl.
  - intros data t b Ht Hb Hte Hbe. eexists. split.
    + by apply create_builds.
    + by simpl.
Qed.

End Entity.

(** C7. [update] has no emptiness check: it returns a message for every
    input, and an input carrying the empty string as title (or body) sets
    that field to the empty string and leaves the other of the two as it
    was when the input does not carry it, while [create] rejects an input
    whose title or body is the empty string. *)
Theorem update_accepts_empty_strings (h : Host) (m : Message)
    (data : PartialMessage) :
  (exists m', update h m data = m')
  /\ (p_title data = Some EmptyString -> title (update h m data) = EmptyString)
  /\ (p_body data = Some EmptyString -> body (update h m data) = EmptyString)
  /\ title (update h m empty_title) = EmptyString
  /\ body (update h m empty_title) = body m
  /\ body (update h m empty_body) = EmptyString
  /\ title (update h m empty_body) = title m
  /\ (p_title data = Some EmptyString \/ p_body data = Some EmptyString ->
      create h data = inl (Error required_message)).
Proof.
  split; [by eexists|]. split; [|split].
  - intros Ht. unfold update. rewrite Ht.
    by destruct (p_body data), (p_attachmentURL data).
  - intros Hb. unfold update. rewrite Hb.
    by destruct (p_title data), (p_attachmentURL data).
  - repeat split; try reflexivity.
    intros Hempty. apply create_throws_iff, orb_true_iff.
    rewrite !not_string_missing_or_empty. unfold missing_or_empty. tauto.
Qed.

(* ===================================================================== *)
(** ** The store contract *)
(* ===================================================================== *)

Section Store.

Variable s : gmap string Message.

(** The laws of removal on the store: after [remove(id)], [get(id)] is
    absent; removing an id that is not stored returns absent and leaves the
    store as it was; no removal changes the record of another id. *)
Lemma remove_then_get (k : string) :
  StableBTreeMap.get k (StableBTreeMap.remove k s).2 = OptNone
  /\ (StableBTreeMap.get k s = OptNone ->
      StableBTreeMap.remove k s = (OptNone, s))
  /\ (forall k', k' <> k ->
        StableBTreeMap.get k' (StableBTreeMap.remove k s).2
        = StableBTreeMap.get k' s).
Proof.
  unfold StableBTreeMap.get, StableBTreeMap.remove. simpl. repeat split.
  - by rewrite lookup_delete_eq.
  - intros Hk. destruct (s !! k) eqn:E; [discriminate Hk|].
    by rewrite delete_id.
  - intros k' Hne. by rewrite lookup_delete_ne.
Qed.

Lemma get_OptSome (k : string) (m : Message) :
  StableBTreeMap.get k s = OptSome m <-> s !! k = Some m.
Proof.
  unfold StableBTreeMap.get. destruct (s !! k); simpl; split; congruence.
Qed.

Lemma get_OptNone (k : string) :
  StableBTreeMap.get k s = OptNone <-> s !! k = None.
Proof.
  unfold StableBTreeMap.get. destruct (s !! k); simpl; split; congruence.
Qed.

(** C3. Reading the key of a message right after inserting it there gives
    that message back; a second insert at a key replaces the first; an
    insert always yields a store; and for a record created by the POST
    handler, the GET handler answers 200 with the optional result of the
    store that holds this record. *)
Theorem get_after_insert (m : Message) :
  StableBTreeMap.get (id m) (StableBTreeMap.insert (id m) m s) = OptSome m
  /\ (forall k m1 m2,
        StableBTreeMap.insert k m2 (StableBTreeMap.insert k m1 s)
        = StableBTreeMap.insert k m2 s)
  /\ (forall k m1 m2,
        StableBTreeMap.get k
          (StableBTreeMap.insert k m2 (StableBTreeMap.insert k m1 s))
        = OptSome m2)
  /\ (forall k v, exists s', StableBTreeMap.insert k v s = s'
                             /\ StableBTreeMap.get k s' = OptSome v)
  /\ (forall h data,
        create h data = inr m ->
        (post_messages h data s).2 = res_json (JsonMessage m)
        /\ (get_message (id m) (post_messages h data s).1).2
           = res_json (JsonOpt (OptSome m))).
Proof.
  unfold StableBTreeMap.get, StableBTreeMap.insert.
  split; [|split; [|split; [|split]]].
  - by rewrite lookup_insert_eq.
  - intros k m1 m2. apply insert_insert_eq.
  - intros k m1 m2. by rewrite lookup_insert_eq.
  - intros k v. eexists. split; [reflexivity|]. by rewrite lookup_insert_eq.
  - intros h data Hm. unfold post_messages. rewrite Hm. simpl. split; [done|].
    unfold get_message, StableBTreeMap.get, StableBTreeMap.insert.
    by rewrite lookup_insert_eq.
Qed.

(** C4. The DELETE handler never answers "not found": the result of
    [remove] is an object, so the test [!deletedMessage] fails and the
    answer has status 200; for an id that is not stored the answer is 200
    with the body [{None: null}], and the store is as it was. *)
Theorem delete_message_never_answers_not_found (k : string) :
  status (delete_message k s).2 = 200
  /\ (delete_message k s).2 <> sendError (not_found_message k) 404
  /\ (StableBTreeMap.get k s = OptNone ->
      delete_message k s = (s, res_json (JsonOpt OptNone))).
Proof.
  unfold delete_message, StableBTreeMap.remove. simpl.
  split; [done|]. split; [done|].
  intros Hk. apply get_OptNone in Hk. by rewrite Hk, delete_id.
Qed.

End Store.

(* ===================================================================== *)
(** ** Search *)
(* ===================================================================== *)

Section Strings.

Lemma startsWith_spec (s q : string) :
  startsWith s q = true <-> exists after, s = q +:+ after.
Proof.
  revert s. induction q as [|a q IH]; intros s; simpl.
  - split; [intros _; by exists s | done].
  - destruct s as [|b s].
    + split; [done | intros [after H]; discriminate H].
    + destruct (Ascii.eqb_spec a b) as [->|Hne].
      * rewrite IH. split; intros [after H]; exists after.
        -- by rewrite H.
        -- by injection H.
      * split; [done | intros [after H]; by injection H].
Qed.

Lemma includes_spec (s q : string) :
  includes s q = true <-> exists before after, s = before +:+ q +:+ after.
Proof.
  induction s as [|b s IH]; simpl; rewrite orb_true_iff, startsWith_spec.
  - split.
    + intros [[after H]|H]; [|done]. by exists EmptyString, after.
    + intros ([|c before] & after & H); [|discriminate H].
      left. by exists after.
  - rewrite IH. split.
    + intros [[after H]|(before & after & H)].
      * by exists EmptyString, after.
      * exists (String b before), after. simpl. by rewrite H.
    + intros ([|c before] & after & H).
      * left. by exists after.
      * right. exists before, after. by injection H.
Qed.

Lemma includes_contains (s q : string) :
  includes s q = true <-> contains s q.
Proof. apply includes_spec. Qed.

Lemma lower_ascii_append (a b : string) :
  lower_ascii (a +:+ b) = lower_ascii a +:+ lower_ascii b.
Proof. induction a as [|c a IH]; simpl; [done | by rewrite IH]. Qed.

Lemma lower_ascii_split (s x y : string) :
  lower_ascii s = x +:+ y ->
  exists a b, s = a +:+ b /\ lower_ascii a = x /\ lower_ascii b = y.
Proof.
  revert s. induction x as [|c x IH]; intros s H; simpl in H.
  - by exists EmptyString, s.
  - destruct s as [|d s]; [discriminate H|]. simpl in H.
    injection H as Hc Hs. destruct (IH _ Hs) as (a & b & -> & Ha & Hb).
    exists (String d a), b. simpl. by rewrite Hc, Ha.
Qed.

Lemma is_ascii_capital_bounds (n : N) :
  is_ascii_capital n = true <-> (65 <= n <= 90)%N.
Proof.
  unfold is_ascii_capital. rewrite andb_true_iff, !N.leb_le. tauto.
Qed.

Lemma N_of_lower_ascii_unit (c : ascii) :
  N_of_ascii (lower_ascii_unit c)
  = if is_ascii_capital (N_of_ascii c) then (N_of_ascii c + 32)%N
    else N_of_ascii c.
Proof.
  unfold lower_ascii_unit.
  destruct (is_ascii_capital (N_of_ascii c)) eqn:E; [|done].
  apply N_ascii_embedding. apply is_ascii_capital_bounds in E. lia.
Qed.

Lemma N_of_ascii_inj (x y : ascii) : N_of_ascii x = N_of_ascii y -> x = y.
Proof.
  intros H. by rewrite <- (ascii_N_embedding x), <- (ascii_N_embedding y), H.
Qed.

(** The letters that the specification takes as equal up to case are those
    that the letter-by-letter lower-casing makes equal. *)
Lemma same_letter_spec (x y : ascii) :
  same_letter x y <-> lower_ascii_unit x = lower_ascii_unit y.
Proof.
  unfold same_letter, capital_and_small. split.
  - intros [->|[[Hc Hy]|[Hc Hx]]]; [done| |]; apply N_of_ascii_inj;
      rewrite !N_of_lower_ascii_unit.
    + apply is_ascii_capital_bounds in Hc as Hc'. rewrite Hc', Hy.
      destruct (is_ascii_capital (N_of_ascii x + 32)) eqn:E; [|done].
      apply is_ascii_capital_bounds in E. lia.
    + apply is_ascii_capital_bounds in Hc as Hc'. rewrite Hc', Hx.
      destruct (is_ascii_capital (N_of_ascii y + 32)) eqn:E; [|done].
      apply is_ascii_capital_bounds in E. lia.
  - intros H. apply (f_equal N_of_ascii) in H.
    rewrite !N_of_lower_ascii_unit in H.
    destruct (is_ascii_capital (N_of_ascii x)) eqn:Ex,
      (is_ascii_capital (N_of_ascii y)) eqn:Ey;
      try apply is_ascii_capital_bounds in Ex;
      try apply is_ascii_capital_bounds in Ey.
    + left. apply N_of_ascii_inj. lia.
    + right. left. split; [done | lia].
    + right. right. split; [done | lia].
    + left. by apply N_of_ascii_inj.
Qed.

Lemma equal_ignoring_case_spec (a b : string) :
  equal_ignoring_case a b <-> lower_ascii a = lower_ascii b.
Proof.
  revert b. induction a as [|x a IH]; intros [|y b]; simpl; try done.
  rewrite IH, same_letter_spec. split.
  - by intros [-> ->].
  - intros H. by injection H.
Qed.

(** Containment after letter-by-letter lower-casing is containment up to
    case. *)
Lemma includes_lowered_spec (s q : string) :
  includes (lower_ascii s) (lower_ascii q) = true
  <-> contains_case_insensitively s q.
Proof.
  rewrite includes_spec. unfold contains_case_insensitively. split.
  - intros (x & y & H).
    apply lower_ascii_split in H as (before & rest & -> & _ & H).
    apply lower_ascii_split in H as (stretch & after & -> & H & _).
    exists before, stretch, after. split; [done|].
    by apply equal_ignoring_case_spec.
  - intros (before & stretch & after & -> & H).
    apply equal_ignoring_case_spec in H.
    exists (lower_ascii before), (lower_ascii after).
    by rewrite !lower_ascii_append, H.
Qed.

(** What the filter of the handler computes, for every [toLowerCase]. *)
Lemma search_filter_lowered (q : string) (m : Message) :
  search_filter (toLowerCase q) m = true <-> matches_lowered q m.
Proof.
  unfold search_filter, matches_lowered.
  by rewrite orb_true_iff, !includes_contains.
Qed.

(** On ASCII text the filter of the handler is containment up to case. *)
Lemma search_filter_ascii (q : string) (m : Message) :
  is_toLowerCase toLowerCase ->
  is_ascii q = true -> ascii_text m ->
  search_filter (toLowerCase q) m = true <-> matches q m.
Proof.
  intros [Hascii _] Hq [Ht Hb]. unfold search_filter, matches.
  rewrite (Hascii q Hq), (Hascii _ Ht), (Hascii _ Hb).
  by rewrite orb_true_iff, !includes_lowered_spec.
Qed.

Lemma filter_subset_where {A : Type} (f : A -> bool) (P : A -> Prop)
    (l : list A) :
  (forall x, f x = true <-> P x) ->
  subset_where P l (List.filter f l).
Proof.
  intros Hf. induction l as [|x l IH]; simpl; [constructor|].
  destruct (f x) eqn:E.
  - apply subset_where_keep; [by apply Hf | done].
  - apply subset_where_skip; [|done]. rewrite <- Hf. congruence.
Qed.

Lemma subset_where_elem_of {A : Type} (P : A -> Prop) (l r : list A) :
  subset_where P l r -> forall x, x ∈ r <-> x ∈ l /\ P x.
Proof.
  induction 1 as [|y l r Hy _ IH|y l r Hy _ IH]; intros x.
  - split; [by intros ?%elem_of_nil | by intros [?%elem_of_nil _]].
  - rewrite !elem_of_cons, IH. split.
    + intros [->|[? ?]]; auto.
    + intros [[->|?] ?]; auto.
  - rewrite elem_of_cons, IH. split.
    + intros [? ?]; auto.
    + intros [[->|?] ?]; [done | auto].
Qed.

Lemma subset_where_none {A : Type} (P : A -> Prop) (l r : list A) :
  subset_where P l r -> (forall x, x ∈ l -> ~ P x) -> r = [].
Proof.
  intros H Hnone. destruct r as [|x r]; [done|]. exfalso.
  assert (Hx : x ∈ x :: r) by (apply elem_of_cons; by left).
  apply (subset_where_elem_of _ _ _ H) in Hx as [Hl HP].
  by apply (Hnone x).
Qed.

Lemma subset_where_ext {A : Type} (P Q : A -> Prop) (l r : list A) :
  (forall x, x ∈ l -> (P x <-> Q x)) ->
  subset_where P l r -> subset_where Q l r.
Proof.
  intros Hext H. induction H as [|x l r Hx _ IH|x l r Hx _ IH].
  - constructor.
  - apply subset_where_keep.
    + apply Hext; [by left | done].
    + apply IH. intros y Hy. apply Hext. by right.
  - apply subset_where_skip.
    + intros HQ. apply Hx. apply Hext; [by left | done].
    + apply IH. intros y Hy. apply Hext. by right.
Qed.

End Strings.

(** C5. For a non-empty query the search handler answers 200 with exactly
    the records of the listing whose lower-cased title or body contains the
    lower-cased query (the empty list when none does), and the store is
    left as it was.  When the query and the stored titles and bodies are
    ASCII text, these are exactly the records whose title or body contains
    the query case-insensitively.  A missing or empty query is rejected
    with the 400 error. *)
Theorem search_returns_matching_subset (s : gmap string Message) :
  is_toLowerCase toLowerCase ->
  (forall q, q <> EmptyString ->
     exists results,
       search_messages (Some q) s = (s, res_json (JsonMessages results))
       /\ subset_where (matches_lowered q) (StableBTreeMap.values s) results
       /\ (is_ascii q = true ->
           (forall m, m ∈ StableBTreeMap.values s -> ascii_text m) ->
           subset_where (matches q) (StableBTreeMap.values s) results
           /\ (forall m, m ∈ results
                         <-> m ∈ StableBTreeMap.values s /\ matches q m))
       /\ ((forall m, m ∈ StableBTreeMap.values s -> ~ matches_lowered q m)
           -> results = []))
  /\ search_messages None s = (s, sendError query_required_message 400)
  /\ search_messages (Some EmptyString) s
     = (s, sendError query_required_message 400).
Proof.
  intros Hlower. split; [|split].
  - intros q Hq.
    exists (List.filter (search_filter (toLowerCase q))
              (StableBTreeMap.values s)).
    assert (Hsub : subset_where (matches_lowered q) (StableBTreeMap.values s)
              (List.filter (search_filter (toLowerCase q))
                 (StableBTreeMap.values s)))
      by apply filter_subset_where, search_filter_lowered.
    split; [|split; [done|split]].
    + unfold search_messages. simpl.
      destruct (toLowerCase q) eqn:E; [|done].
      destruct Hlower as [_ Hne]. by apply Hne in E.
    + intros Hascii Htext.
      assert (Hsub' : subset_where (matches q) (StableBTreeMap.values s)
                (List.filter (search_filter (toLowerCase q))
                   (StableBTreeMap.values s))).
      { apply (subset_where_ext (matches_lowered q)); [|done].
        intros m Hm. rewrite <- search_filter_lowered.
        by apply search_filter_ascii; [| |apply Htext]. }
      split; [done|]. by apply subset_where_elem_of.
    + by apply subset_where_none.
  - done.
  - unfold search_messages. simpl.
    destruct Hlower as [Hascii _]. by rewrite (Hascii EmptyString).
Qed.

(* ===================================================================== *)
(** ** The stamps of a record *)
(* ===================================================================== *)

Section Stamps.

Lemma update_keeps_id (h : Host) (m : Message) (data : PartialMessage) :
  id (update h m data) = id m.
Proof.
  unfold update.
  by destruct (p_title data), (p_body data), (p_attachmentURL data).
Qed.

Lemma update_keeps_createdAt (h : Host) (m : Message) (data : PartialMessage) :
  createdAt (update h m data) = createdAt m.
Proof.
  unfold update.
  by destruct (p_title data), (p_body data), (p_attachmentURL data).
Qed.

Lemma update_sets_updatedAt (h : Host) (m : Message) (data : PartialMessage) :
  updatedAt (update h m data) = Some (getCurrentDate (ic_time h)).
Proof. reflexivity. Qed.

Lemma create_stamps (h : Host) (data : PartialMessage) (m : Message) :
  create h data = inr m ->
  id m = uuidv4 h /\ createdAt m = getCurrentDate (ic_time h)
  /\ updatedAt m = None.
Proof.
  intros Hm. apply create_returns_inv in Hm
    as (t & b & _ & _ & _ & _ & ->). by simpl.
Qed.

Lemma keys_are_ids_empty : keys_are_ids ∅.
Proof. intros k m H. by rewrite lookup_empty in H. Qed.

Lemma keys_are_ids_insert (s : gmap string Message) (m : Message) :
  keys_are_ids s -> keys_are_ids (<[id m := m]> s).
Proof.
  intros Hs k m'. rewrite lookup_insert. case_decide as Hk.
  - intros [= <-]. done.
  - apply Hs.
Qed.

Lemma keys_are_ids_delete (s : gmap string Message) (k : string) :
  keys_are_ids s -> keys_are_ids (delete k s).
Proof.
  intros Hs k' m. rewrite lookup_delete. case_decide; [done | apply Hs].
Qed.

(** The PUT handler never writes the store: for an id that is not stored
    the answer is 404, and for a stored one [message.update] throws before
    the [insert] is reached. *)
Lemma put_message_keeps_store (h : Host) (k : string) (data : PartialMessage)
    (s : gmap string Message) :
  (put_message h k data s).1 = s.
Proof.
  unfold put_message, StableBTreeMap.get.
  by destruct (s !! k).
Qed.

(** A record found under a key after a handler run was there before the
    run, or the run is the POST that created it. *)
Lemma handle_origin (h : Host) (c : Call) (s : gmap string Message)
    (k : string) (m : Message) :
  (handle h c s).1 !! k = Some m ->
  s !! k = Some m \/ (creates h c m /\ id m = k).
Proof.
  destruct c as [data| |k'|k' data|k'|q]; simpl.
  - unfold post_messages, StableBTreeMap.insert.
    destruct (create h data) as [[msg]|m0] eqn:E; simpl; [by left|].
    rewrite lookup_insert. case_decide as Hk; [|by left].
    intros [= <-]. right. split; [by exists data | done].
  - by left.
  - unfold get_message. by left.
  - rewrite put_message_keeps_store. by left.
  - unfold delete_message, StableBTreeMap.remove. simpl.
    rewrite lookup_delete. case_decide; [done | by left].
  - unfold search_messages. repeat case_match; by left.
Qed.

Lemma run_origin (calls : list (Host * Call)) :
  forall (s : gmap string Message) (k : string) (m : Message),
    run calls s !! k = Some m ->
    s !! k = Some m
    \/ exists h c, (h, c) ∈ calls /\ creates h c m /\ id m = k.
Proof.
  induction calls as [|[h c] calls IH]; intros s k m Hm; simpl in Hm.
  - by left.
  - apply IH in Hm as [Hm|(h' & c' & Hin & Hc)].
    + apply handle_origin in Hm as [Hm|Hc]; [by left|].
      right. exists h, c. split; [by left | done].
    + right. exists h', c'. split; [by right | done].
Qed.

Lemma updated_keeps_createdAt (steps : list (Host * PartialMessage)) :
  forall m, createdAt (updated m steps) = createdAt m.
Proof.
  induction steps as [|[h data] steps IH]; intros m; simpl; [done|].
  by rewrite IH, update_keeps_createdAt.
Qed.

Lemma updated_keeps_id (steps : list (Host * PartialMessage)) :
  forall m, id (updated m steps) = id m.
Proof.
  induction steps as [|[h data] steps IH]; intros m; simpl; [done|].
  by rewrite IH, update_keeps_id.
Qed.

(** After a sequence of updates [updatedAt] is the clock value of the last
    one, and it is left as it was when there is none. *)
Lemma updated_updatedAt (steps : list (Host * PartialMessage)) :
  forall m,
    updatedAt (updated m steps)
    = match last (update_stamps steps) with
      | Some u => Some u
      | None => updatedAt m
      end.
Proof.
  induction steps as [|[h data] steps IH]; intros m; [done|].
  change (updated m ((h, data) :: steps))
    with (updated (update h m data) steps).
  rewrite IH, update_sets_updatedAt.
  change (update_stamps ((h, data) :: steps))
    with (getCurrentDate (ic_time h) :: update_stamps steps).
  rewrite last_cons. by destruct (last (update_stamps steps)).
Qed.

Lemma sorted_le_last (x : Z) (l : list Z) (u : Z) :
  Sorted Z.le (x :: l) -> last l = Some u -> x <= u.
Proof.
  intros Hs Hl. apply Sorted_StronglySorted in Hs; [|intros a b c; lia].
  apply StronglySorted_inv in Hs as [_ Hall].
  rewrite List.Forall_forall in Hall. apply Hall.
  apply list_elem_of_In. apply last_Some in Hl as [l' ->].
  apply elem_of_app. right. by left.
Qed.

End Stamps.


(* ===================================================================== *)
(** ** The clock *)
(* ===================================================================== *)

(** Readings that binary64 holds exactly and that lie on a millisecond
    boundary are truncated exactly. *)
Example getCurrentDate_on_boundary :
  getCurrentDate (ic_time host_1) = millisecond_truncation (ic_time host_1).
Proof. vm_compute. reflexivity. Qed.

(** [Number] rounds a reading above 2^53 to a multiple of the binary64
    spacing (256 near 1.7e18) before the division takes place. *)
Example Number_rounds_reading :
  Number reading_before_boundary = Number (reading_before_boundary + 1).
Proof. vm_compute. reflexivity. Qed.

(** C8. The stamp is meant to be the millisecond truncation
    [floor(t / 1,000,000)] of the nanosecond reading [t].  At the 64-bit
    reading 1699999999999999999 the source returns 1700000000000, one
    millisecond more than the truncation 1699999999999: the reading is
    rounded to binary64 before it is divided. *)
Theorem getCurrentDate_misses_truncation :
  0 <= reading_before_boundary < 2 ^ 64
  /\ getCurrentDate reading_before_boundary = 1700000000000
  /\ millisecond_truncation reading_before_boundary = 1699999999999
  /\ getCurrentDate reading_before_boundary
     <> millisecond_truncation reading_before_boundary.
Proof.
  split; [by vm_compute|].
  split; [by vm_compute|].
  split; [by vm_compute|].
  by vm_compute.
Qed.

(* ===================================================================== *)
(** ** The handlers, one run at a time *)
(* ===================================================================== *)

Section Handlers.

Variable h : Host.
Variable s : gmap string Message.

Lemma create_inr_iff (data : PartialMessage) :
  (exists m, create h data = inr m)
  <-> ~ (missing_or_empty (p_title data) \/ missing_or_empty (p_body data)).
Proof.
  rewrite <- !not_string_missing_or_empty, <- orb_true_iff.
  unfold create.
  destruct (not_string (p_title data) || not_string (p_body data)) eqn:E.
  - split; [intros [m Hm]; discriminate Hm | intros H; by destruct H].
  - split; [done|]. intros _.
    destruct (p_title data) as [t|], (p_body data) as [b|];
      try discriminate E; try (by destruct t); by eexists.
Qed.

(** X1. A POST whose title or body is missing or empty is answered with
    status 400 and the validation message, and the store is not touched. *)
Theorem post_messages_rejects_invalid (data : PartialMessage) :
  missing_or_empty (p_title data) \/ missing_or_empty (p_body data) ->
  post_messages h data s = (s, sendError required_message 400).
Proof.
  intros Hbad. unfold post_messages.
  replace (create h data) with (@inl Thrown Message (Error required_message));
    [done|].
  symmetry. apply create_throws_iff, orb_true_iff.
  by rewrite !not_string_missing_or_empty.
Qed.

(** X2. A POST that passes validation stores the record built under its
    generated id and answers 200 with it; the records under other ids are
    kept, and when the generated id was unused the listing is the previous
    listing with the new record added. *)
Theorem post_messages_stores_record (data : PartialMessage) (m : Message) :
  create h data = inr m ->
  post_messages h data s = (<[uuidv4 h := m]> s, res_json (JsonMessage m))
  /\ (forall k, k <> uuidv4 h -> (post_messages h data s).1 !! k = s !! k)
  /\ (s !! uuidv4 h = None ->
      StableBTreeMap.values (post_messages h data s).1
      ≡ₚ m :: StableBTreeMap.values s).
Proof.
  intros Hm. unfold post_messages. rewrite Hm.
  destruct (create_stamps h data m Hm) as (Hid & _ & _).
  unfold StableBTreeMap.insert. rewrite Hid. cbn [fst].
  split; [done|]. split.
  - intros k Hk. by rewrite lookup_insert_ne.
  - intros Hfresh. unfold StableBTreeMap.values.
    by rewrite (map_to_list_insert s (uuidv4 h) m Hfresh).
Qed.

(** X3. A PUT never changes the store.  Addressed to an id that is not
    stored it is answered with status 404 and the not-found message;
    addressed to a stored id it is answered with status 400 and the message
    of the TypeError thrown by [message.update], a method that the record
    handed out by the store does not have.  A GET of the id gets the same
    answer after the PUT as before it. *)
Theorem put_message_never_updates (k : string) (data : PartialMessage) :
  (put_message h k data s).1 = s
  /\ (StableBTreeMap.get k s = OptNone ->
      (put_message h k data s).2 = sendError (not_found_message k) 404)
  /\ (forall m, StableBTreeMap.get k s = OptSome m ->
        (put_message h k data s).2
        = sendError "message.update is not a function" 400)
  /\ (get_message k (put_message h k data s).1).2 = (get_message k s).2.
Proof.
  split; [apply put_message_keeps_store|]. split; [|split].
  - intros Hk. unfold put_message. by rewrite Hk.
  - intros m Hk. unfold put_message. by rewrite Hk.
  - by rewrite put_message_keeps_store.
Qed.

(** X4. A DELETE addressed to a stored id removes the record and answers
    200 with the object [{Some: record}]; the same DELETE run again is
    answered with 200 and [{None: null}] and changes nothing more, and the
    listing before the removal is the listing after it with the removed
    record added. *)
Theorem delete_message_removes_record (k : string) (m : Message) :
  StableBTreeMap.get k s = OptSome m ->
  delete_message k s = (delete k s, res_json (JsonOpt (OptSome m)))
  /\ delete_message k (delete_message k s).1
     = (delete k s, res_json (JsonOpt OptNone))
  /\ StableBTreeMap.values s
     ≡ₚ m :: StableBTreeMap.values (delete_message k s).1.
Proof.
  intros Hk. apply get_OptSome in Hk.
  unfold delete_message, StableBTreeMap.remove.
  rewrite Hk. cbn [fst not_Opt Opt_of].
  rewrite lookup_delete_eq, delete_delete_eq.
  split; [done|]. split; [done|].
  unfold StableBTreeMap.values.
  rewrite <- (insert_delete_id s k m Hk) at 1.
  by rewrite map_to_list_insert by apply lookup_delete_eq.
Qed.

(** X5. A handler run that answers with a status other than 200 leaves the
    store as it was, and so does every run of the three reading handlers
    (list, get by id, search) and of the PUT handler. *)
Theorem failed_or_reading_run_keeps_store (c : Call) :
  (status (handle h c s).2 <> 200 -> (handle h c s).1 = s)
  /\ (handle h GetAll s).1 = s
  /\ (forall k, (handle h (GetOne k) s).1 = s)
  /\ (forall q, (handle h (Search q) s).1 = s)
  /\ (forall k data, (handle h (Put k data) s).1 = s).
Proof.
  split; [|split; [done|split; [done|split]]].
  - destruct c as [data| |k|k data|k|q]; simpl.
    + unfold post_messages. by destruct (create h data) as [[msg]|m].
    + done.
    + done.
    + intros _. apply put_message_keeps_store.
    + done.
    + unfold search_messages. by repeat case_match.
  - intros q. simpl. unfold search_messages. by repeat case_match.
  - intros k data. apply put_message_keeps_store.
Qed.

(** X6. A handler run changes the record of at most one id: there is an id
    such that the records under all other ids are as before. *)
Theorem handle_touches_one_key (c : Call) :
  exists k, forall k', k' <> k -> (handle h c s).1 !! k' = s !! k'.
Proof.
  destruct c as [data| |k|k data|k|q]; simpl.
  - unfold post_messages. destruct (create h data) as [[msg]|m].
    + by exists EmptyString.
    + exists (id m). intros k' Hk'. unfold StableBTreeMap.insert.
      cbn [fst]. by rewrite lookup_insert_ne.
  - by exists EmptyString.
  - by exists k.
  - exists k. intros k' _. by rewrite put_message_keeps_store.
  - exists k. intros k' Hk'. unfold delete_message, StableBTreeMap.remove.
    cbn [fst not_Opt]. by rewrite lookup_delete_ne.
  - exists EmptyString. unfold search_messages. by repeat case_match.
Qed.

(** X7. Every response has status 200, 400 or 404, and its body is an
    error body exactly when the status is not 200.  Status 404 is given by
    a PUT addressed to an id that is not stored, and by nothing else;
    status 400 by a rejected creation, by a PUT addressed to a stored id
    and by a search without query.  A GET by id and a DELETE are always
    answered with status 200. *)
Theorem response_status_and_body (c : Call) :
  let r := (handle h c s).2 in
  (status r = 200 \/ status r = 400 \/ status r = 404)
  /\ (is_error r <-> status r <> 200)
  /\ (status r = 404 ->
      exists k data, c = Put k data /\ StableBTreeMap.get k s = OptNone)
  /\ (status r = 400 ->
      (exists data, c = Post data) \/ (exists q, c = Search q)
      \/ (exists k data m, c = Put k data
                            /\ StableBTreeMap.get k s = OptSome m))
  /\ (forall k, c = GetOne k \/ c = Delete k -> status r = 200).
Proof.
  unfold is_error.
  destruct c as [data| |k|k data|k|q]; simpl.
  - unfold post_messages. destruct (create h data) as [[msg]|m]; simpl;
      repeat split; eauto; try done; try (intros [e He]; done);
      intros k [?|?]; done.
  - repeat split; eauto; try done; try (intros [e He]; done);
      intros k [?|?]; done.
  - unfold get_message; simpl.
    repeat split; eauto; try done; intros [e He]; done.
  - unfold put_message. destruct (StableBTreeMap.get k s) eqn:E; simpl;
      repeat split; eauto 8; try done; try (intros [e He]; done);
      intros k0 [?|?]; done.
  - unfold delete_message, StableBTreeMap.remove; simpl.
    repeat split; eauto; try done; intros [e He]; done.
  - unfold search_messages.
    destruct (not_string (toLowerCase <$> q)) eqn:E; simpl.
    + repeat split; eauto; try done; intros k [?|?]; done.
    + destruct q as [q|]; simpl in *; [|done].
      repeat split; eauto; try done; try (intros [e He]; done);
        intros k [?|?]; done.
Qed.

End Handlers.

(* ===================================================================== *)
(** ** Invariants of the stored records *)
(* ===================================================================== *)

Section Invariants.

Lemma handle_keeps_keys (h : Host) (c : Call) (s : gmap string Message) :
  keys_are_ids s -> keys_are_ids (handle h c s).1.
Proof.
  intros Hs. destruct c as [data| |k|k data|k|q]; simpl.
  - unfold post_messages. destruct (create h data) as [[msg]|m]; simpl;
      [done | by apply keys_are_ids_insert].
  - done.
  - done.
  - by rewrite put_message_keeps_store.
  - unfold delete_message, StableBTreeMap.remove. simpl.
    by apply keys_are_ids_delete.
  - unfold search_messages. by repeat case_match.
Qed.

Lemma run_keeps_keys (calls : list (Host * Call)) :
  forall s : gmap string Message,
    keys_are_ids s -> keys_are_ids (run calls s).
Proof.
  induction calls as [|[h c] calls IH]; intros s Hs; simpl; [done|].
  by apply IH, handle_keeps_keys.
Qed.

(** X8. In every store reached from the empty one through the handlers,
    each record is stored under its own id. *)
Theorem reachable_keys_are_ids (calls : list (Host * Call)) (k : string)
    (m : Message) :
  run calls ∅ !! k = Some m -> id m = k.
Proof. apply (run_keeps_keys calls ∅ keys_are_ids_empty). Qed.

(** X9. A stored record is fixed: while no run creates a record under the
    same id again, whatever the handlers leave under that id is the record
    that was there, field for field. *)
Theorem stored_record_is_fixed (calls : list (Host * Call))
    (s : gmap string Message) (k : string) (m m' : Message) :
  s !! k = Some m ->
  run calls s !! k = Some m' ->
  (forall h c m0, (h, c) ∈ calls -> creates h c m0 -> id m0 <> k) ->
  m' = m.
Proof.
  intros Hm Hm' Hnew.
  apply run_origin in Hm' as [Hm'|(h & c & Hin & Hc & Hid)].
  - congruence.
  - by destruct (Hnew h c m' Hin Hc).
Qed.

(** X10. No record enters the store but through [create]: every record of
    a store reached from the empty one is the record built by [create] in
    one of the POST runs, as built; it is stored under the identifier
    generated in that run, its [createdAt] is the clock value of that run
    and its [updatedAt] is absent. *)
Theorem stored_record_comes_from_create (calls : list (Host * Call))
    (k : string) (m : Message) :
  run calls ∅ !! k = Some m ->
  exists h req_body,
    (h, Post req_body) ∈ calls
    /\ create h req_body = inr m
    /\ k = uuidv4 h
    /\ id m = uuidv4 h
    /\ createdAt m = getCurrentDate (ic_time h)
    /\ updatedAt m = None.
Proof.
  intros Hm.
  apply run_origin in Hm as [Hm|(h & c & Hin & (data & -> & Hc) & Hid)].
  - by rewrite lookup_empty in Hm.
  - exists h, data. split; [done|]. split; [done|].
    destruct (create_stamps h data m Hc) as (Hid0 & Hcr0 & Hu0).
    repeat split; congruence.
Qed.

End Invariants.

(* ===================================================================== *)
(** ** Composition of the entity operations *)
(* ===================================================================== *)

(** X11. Two updates in a row amount to one update, made at the time of the
    second, with the second input laid over the first: a field carried by
    the second input wins, a field carried by the first only is kept. *)
Theorem update_twice_is_one_update (h1 h2 : Host) (m : Message)
    (d1 d2 : PartialMessage) :
  update h2 (update h1 m d1) d2 = update h2 m (overlay d1 d2).
Proof.
  unfold update, overlay. simpl.
  by destruct (p_title d1), (p_body d1), (p_attachmentURL d1),
    (p_title d2), (p_body d2), (p_attachmentURL d2).
Qed.

(** X12. A message built by [create] never carries the empty string: its
    title and body are non-empty, and its attachmentURL is absent or
    non-empty; a non-empty attachmentURL of the input is kept as it is. *)
Theorem created_fields_are_non_empty (h : Host) (data : PartialMessage)
    (m : Message) :
  create h data = inr m ->
  title m <> EmptyString
  /\ body m <> EmptyString
  /\ attachmentURL m <> Some EmptyString
  /\ (forall a, p_attachmentURL data = Some (Some a) -> a <> EmptyString ->
        attachmentURL m = Some a).
Proof.
  intros Hm. apply create_returns_inv in Hm
    as (t & b & _ & _ & Ht & Hb & ->). simpl.
  split; [by destruct t|]. split; [by destruct b|]. split.
  - by destruct (p_attachmentURL data) as [[[|c a]|]|].
  - intros a -> Ha. by destruct a.
Qed.

(* ===================================================================== *)
(** ** Search, across queries *)
(* ===================================================================== *)

Section SearchQueries.

Variable s : gmap string Message.

Lemma append_assoc (a b c : string) :
  (a +:+ b) +:+ c = a +:+ b +:+ c.
Proof.
  induction a as [|x a IH]; [done | exact (f_equal (String x) IH)].
Qed.

Lemma append_empty_r (a : string) : a +:+ EmptyString = a.
Proof.
  induction a as [|x a IH]; [done | exact (f_equal (String x) IH)].
Qed.

Lemma includes_itself (a : string) : includes a a = true.
Proof.
  apply includes_spec. exists EmptyString, EmptyString.
  by rewrite append_empty_r.
Qed.

Lemma contains_trans (a b c : string) :
  contains a b -> contains b c -> contains a c.
Proof.
  intros (x & y & ->) (x' & y' & ->).
  exists (x +:+ x'), (y' +:+ y).
  by rewrite !append_assoc.
Qed.

Lemma is_ascii_append (a b : string) :
  is_ascii (a +:+ b) = is_ascii a && is_ascii b.
Proof.
  induction a as [|x a IH]; [done|].
  change (is_ascii (String x a +:+ b))
    with ((N_of_ascii x <? 128)%N && is_ascii (a +:+ b)).
  rewrite IH. apply andb_assoc.
Qed.

(** Text that equals ASCII text up to case is ASCII text. *)
Lemma equal_ignoring_case_ascii (a b : string) :
  equal_ignoring_case a b -> is_ascii a = true -> is_ascii b = true.
Proof.
  revert b. induction a as [|x a IH]; intros [|y b]; simpl; try done.
  intros [Hxy Hab]. rewrite !andb_true_iff, !N.ltb_lt.
  intros [Hx Ha]. split; [|by apply IH].
  destruct Hxy as [->|[[Hc Hy]|[Hc Hx']]]; [done | lia | lia].
Qed.

Lemma contains_case_insensitively_ascii (a b : string) :
  contains_case_insensitively a b -> is_ascii a = true -> is_ascii b = true.
Proof.
  intros (before & stretch & after & -> & Heq).
  rewrite !is_ascii_append, !andb_true_iff. intros (_ & Hs & _).
  by apply (equal_ignoring_case_ascii stretch).
Qed.

Lemma filter_sublist_implied {A : Type} (f g : A -> bool) (l : list A) :
  (forall x, f x = true -> g x = true) ->
  sublist (List.filter f l) (List.filter g l).
Proof.
  intros Hfg. induction l as [|x l IH]; simpl; [done|].
  destruct (f x) eqn:Ef.
  - rewrite (Hfg x Ef). by constructor.
  - destruct (g x); [by constructor | done].
Qed.

(** A search with a non-empty query answers with the filtered listing. *)
Lemma search_messages_answer (q : string) :
  is_toLowerCase toLowerCase ->
  q <> EmptyString ->
  search_messages (Some q) s
  = (s, res_json (JsonMessages
           (List.filter (search_filter (toLowerCase q))
              (StableBTreeMap.values s)))).
Proof.
  intros [_ Hne] Hq. unfold search_messages. simpl.
  destruct (toLowerCase q) eqn:E; [|done]. by apply Hne in E.
Qed.

(** X13. The search does not depend on the case of an ASCII query: two
    queries that are equal up to case, one of them ASCII text, get the same
    response, whatever the stored records are. *)
Theorem search_ignores_query_case (q q' : string) :
  is_toLowerCase toLowerCase ->
  is_ascii q = true ->
  equal_ignoring_case q q' ->
  search_messages (Some q) s = search_messages (Some q') s.
Proof.
  intros Hlower Hq H.
  assert (Hq' : is_ascii q' = true) by by apply (equal_ignoring_case_ascii q).
  apply equal_ignoring_case_spec in H.
  destruct Hlower as [Hascii _].
  unfold search_messages. simpl.
  by rewrite (Hascii q Hq), (Hascii q' Hq'), H.
Qed.

(** X14. A shorter query finds more: when the non-empty query [q'] occurs
    up to case in the ASCII query [q], the results for [q] are among the
    results for [q'], in the same order, whatever the stored records
    are. *)
Theorem search_narrows_with_longer_query (q q' : string) :
  is_toLowerCase toLowerCase ->
  is_ascii q = true ->
  q' <> EmptyString ->
  contains_case_insensitively q q' ->
  exists results results',
    search_messages (Some q) s = (s, res_json (JsonMessages results))
    /\ search_messages (Some q') s = (s, res_json (JsonMessages results'))
    /\ sublist results results'.
Proof.
  intros Hlower Hascii Hq' Hin.
  assert (Hq : q <> EmptyString).
  { intros ->. destruct Hin as ([|? ?] & [|? ?] & after & H & Heq);
      try discriminate H. by destruct q'. }
  assert (Hascii' : is_ascii q' = true)
    by by apply (contains_case_insensitively_ascii q).
  exists (List.filter (search_filter (toLowerCase q)) (StableBTreeMap.values s)),
    (List.filter (search_filter (toLowerCase q')) (StableBTreeMap.values s)).
  split; [by apply search_messages_answer|].
  split; [by apply search_messages_answer|].
  apply filter_sublist_implied. intros m.
  assert (Hqq : contains (toLowerCase q) (toLowerCase q')).
  { destruct Hlower as [Hl _]. rewrite (Hl q Hascii), (Hl q' Hascii').
    by apply includes_contains, includes_lowered_spec. }
  unfold search_filter. rewrite !orb_true_iff, !includes_contains.
  intros [H|H]; [left|right]; by apply (contains_trans _ (toLowerCase q)).
Qed.

(** X15. A stored record is found by its own text: a search for its
    non-empty title or body as stored, or for ASCII text that equals the
    title or the body up to case, returns a list that contains the
    record. *)
Theorem search_finds_record_by_its_text (m : Message) (q : string) :
  is_toLowerCase toLowerCase ->
  m ∈ StableBTreeMap.values s ->
  q <> EmptyString ->
  q = title m \/ q = body m
  \/ (is_ascii q = true
      /\ (equal_ignoring_case q (title m)
          \/ equal_ignoring_case q (body m))) ->
  exists results,
    search_messages (Some q) s = (s, res_json (JsonMessages results))
    /\ m ∈ results.
Proof.
  intros Hlower Hm Hq Heq.
  exists (List.filter (search_filter (toLowerCase q)) (StableBTreeMap.values s)).
  split; [by apply search_messages_answer|].
  apply list_elem_of_In, filter_In. split; [by apply list_elem_of_In|].
  unfold search_filter. apply orb_true_iff.
  destruct Heq as [->|[->|[Hascii [H|H]]]].
  - left. apply includes_itself.
  - right. apply includes_itself.
  - left. destruct Hlower as [Hl _].
    rewrite (Hl q Hascii),
      (Hl _ (equal_ignoring_case_ascii _ _ H Hascii)).
    apply equal_ignoring_case_spec in H. rewrite H. apply includes_itself.
  - right. destruct Hlower as [Hl _].
    rewrite (Hl q Hascii),
      (Hl _ (equal_ignoring_case_ascii _ _ H Hascii)).
    apply equal_ignoring_case_spec in H. rewrite H. apply includes_itself.
Qed.

End SearchQueries.

(* ===================================================================== *)
(** ** The clock in integer arithmetic *)
(* ===================================================================== *)

Section Binary64.

Lemma shr_1_nonneg (m : Z) (r s : bool) :
  0 <= m ->
  shr_1 (Build_shr_record m r s) = Build_shr_record (m / 2) (Z.odd m) (r || s).
Proof.
  intros Hm. destruct m as [|[p|p|]|p]; try lia; simpl; f_equal.
  - rewrite Pos2Z.inj_xI. apply Z.div_unique with 1; lia.
  - rewrite Pos2Z.inj_xO. apply Z.div_unique with 0; lia.
Qed.

Lemma represents_shr_1 (mrs : shr_record) (N D : Z) :
  0 <= N -> 0 < D ->
  represents mrs N D -> represents (shr_1 mrs) N (2 * D).
Proof.
  intros HN HD [Hm Hl]. destruct mrs as [m r s]. simpl in Hm. subst m.
  rewrite shr_1_nonneg by (apply Z.div_pos; lia).
  assert (Hrs : r || s = negb (N mod D =? 0)).
  { revert Hl. unfold loc_of. simpl.
    destruct (N mod D =? 0); destruct r, s; simpl; try done;
      destruct (2 * (N mod D) ?= D); done. }
  assert (Hr : r = true <-> D <= 2 * (N mod D)).
  { revert Hl. unfold loc_of. simpl.
    pose proof (Z.mod_pos_bound N D HD).
    destruct (Z.eqb_spec (N mod D) 0) as [E|E].
    - destruct r, s; simpl; try done. intros _. split; [done | lia].
    - destruct (Z.compare_spec (2 * (N mod D)) D);
        destruct r, s; simpl; try done; intros _; split; try done; lia. }
  set (m := N / D) in *. set (rho := N mod D) in *.
  assert (HNeq : N = D * m + rho) by (apply Z.div_mod; lia).
  assert (Hrho : 0 <= rho < D) by (apply Z.mod_pos_bound; lia).
  assert (Hm0 : 0 <= m) by (apply Z.div_pos; lia).
  assert (Hb : m = 2 * (m / 2) + (if Z.odd m then 1 else 0)).
  { rewrite (Z.div2_odd m) at 1. rewrite Z.div2_div. by destruct (Z.odd m). }
  assert (Hdiv : N / (2 * D) = m / 2).
  { unfold m. rewrite Z.mul_comm, Z.div_div by lia. done. }
  assert (Hmod : N mod (2 * D) = rho + D * (if Z.odd m then 1 else 0)).
  { symmetry. apply Z.mod_unique with (m / 2); [destruct (Z.odd m); lia|].
    rewrite HNeq at 1. rewrite Hb at 1. ring. }
  split; simpl; [done|].
  unfold loc_of. rewrite Hmod, Hrs. fold rho.
  destruct (Z.odd m); destruct (Z.eqb_spec rho 0) as [E|E]; simpl.
  - rewrite E. replace (0 + D * 1 =? 0) with false by (symmetry; apply Z.eqb_neq; lia).
    replace (2 * (0 + D * 1) ?= 2 * D) with Eq by (symmetry; apply Z.compare_eq_iff; lia).
    done.
  - replace (rho + D * 1 =? 0) with false by (symmetry; apply Z.eqb_neq; lia).
    replace (2 * (rho + D * 1) ?= 2 * D) with Gt by (symmetry; apply Z.compare_gt_iff; lia).
    done.
  - rewrite E. by replace (0 + D * 0 =? 0) with true by (symmetry; apply Z.eqb_eq; lia).
  - replace (rho + D * 0 =? 0) with false by (symmetry; apply Z.eqb_neq; lia).
    replace (2 * (rho + D * 0) ?= 2 * D) with Lt by (symmetry; apply Z.compare_lt_iff; lia).
    done.
Qed.

Lemma pow2_xO (p : positive) : 2 ^ Z.pos p~0 = 2 ^ Z.pos p * 2 ^ Z.pos p.
Proof.
  replace (Z.pos p~0) with (Z.pos p + Z.pos p) by lia.
  apply Z.pow_add_r; lia.
Qed.

Lemma pow2_xI (p : positive) : 2 ^ Z.pos p~1 = 2 * (2 ^ Z.pos p * 2 ^ Z.pos p).
Proof.
  replace (Z.pos p~1) with (1 + (Z.pos p + Z.pos p)) by lia.
  rewrite !Z.pow_add_r by lia. done.
Qed.

Lemma represents_iter (p : positive) :
  forall (mrs : shr_record) (N D : Z),
    0 <= N -> 0 < D ->
    represents mrs N D ->
    represents (SpecFloat.iter_pos shr_1 p mrs) N (D * 2 ^ Z.pos p).
Proof.
  induction p as [p IH|p IH|]; intros mrs N D HN HD H;
    cbn [SpecFloat.iter_pos].
  - apply represents_shr_1 in H; [|done..].
    apply IH in H; [|lia..]. apply IH in H; [|nia..].
    by replace (D * 2 ^ Z.pos p~1) with (2 * D * 2 ^ Z.pos p * 2 ^ Z.pos p)
      by (rewrite pow2_xI; ring).
  - apply IH in H; [|lia..]. apply IH in H; [|nia..].
    by replace (D * 2 ^ Z.pos p~0) with (D * 2 ^ Z.pos p * 2 ^ Z.pos p)
      by (rewrite pow2_xO; ring).
  - apply represents_shr_1 in H; [|done..].
    by replace (D * 2 ^ 1) with (2 * D) by lia.
Qed.

Lemma represents_of_loc (N D : Z) :
  represents (shr_record_of_loc (N / D) (loc_of N D)) N D.
Proof.
  split; by destruct (loc_of N D) as [|[]].
Qed.

Lemma represents_shr (mrs : shr_record) (e n N D : Z) :
  0 <= N -> 0 < D -> 0 <= n ->
  represents mrs N D ->
  represents (shr mrs e n).1 N (D * 2 ^ n) /\ (shr mrs e n).2 = e + n.
Proof.
  intros HN HD Hn H. destruct n as [|p|p]; [| |lia]; simpl.
  - split; [|lia]. by rewrite Z.mul_1_r.
  - split; [|done]. by apply represents_iter.
Qed.

Lemma round_nearest_even_rne (mrs : shr_record) (N D : Z) :
  0 < D ->
  represents mrs N D ->
  round_nearest_even (shr_m mrs) (loc_of_shr_record mrs) = rne N D.
Proof.
  intros HD [-> ->]. unfold loc_of, rne, round_nearest_even.
  destruct (Z.eqb_spec (N mod D) 0) as [E|E].
  - rewrite E. destruct (Z.compare_spec (2 * 0) D); [lia | done | lia].
  - done.
Qed.

Lemma digits2_pos_bounds (p : positive) :
  2 ^ (Z.pos (digits2_pos p) - 1) <= Z.pos p < 2 ^ Z.pos (digits2_pos p).
Proof.
  induction p as [p IH|p IH|]; simpl; [| |done].
  - rewrite Pos2Z.inj_succ.
    replace (Z.succ (Z.pos (digits2_pos p)) - 1) with (Z.succ (Z.pos (digits2_pos p) - 1)) by lia.
    rewrite !Z.pow_succ_r by lia. lia.
  - rewrite Pos2Z.inj_succ.
    replace (Z.succ (Z.pos (digits2_pos p)) - 1) with (Z.succ (Z.pos (digits2_pos p) - 1)) by lia.
    rewrite !Z.pow_succ_r by lia. lia.
Qed.

Lemma Zdigits2_unique (m k : Z) :
  2 ^ (k - 1) <= m < 2 ^ k -> 0 < m -> Zdigits2 m = k.
Proof.
  intros Hb Hm. destruct m as [|p|p]; try lia. simpl.
  pose proof (digits2_pos_bounds p) as Hd.
  set (d := Z.pos (digits2_pos p)) in *.
  assert (0 < k).
  { destruct (Z_lt_le_dec 0 k); [done|]. exfalso.
    assert (2 ^ k <= 1); [|lia].
    destruct (Z.eq_dec k 0) as [->|]; [done|].
    rewrite Z.pow_neg_r; lia. }
  destruct (Z_lt_le_dec d k) as [Hlt|Hge].
  - assert (2 ^ d <= 2 ^ (k - 1)) by (apply Z.pow_le_mono_r; lia). lia.
  - destruct (Z_lt_le_dec k d) as [Hlt|Hge']; [|lia].
    assert (2 ^ k <= 2 ^ (d - 1)) by (apply Z.pow_le_mono_r; lia). lia.
Qed.

Lemma rne_bounds (N D : Z) :
  0 < D -> N / D <= rne N D <= N / D + 1.
Proof.
  intros HD. unfold rne.
  destruct (2 * (N mod D) ?= D); [destruct (Z.even (N / D))| |]; lia.
Qed.

Lemma rne_exact (N D : Z) :
  0 < D -> N mod D = 0 -> rne N D = N / D.
Proof.
  intros HD E. unfold rne. rewrite E.
  destruct (Z.compare_spec (2 * 0) D); [lia | done | lia].
Qed.

Lemma rne_mono (N1 N2 D : Z) :
  0 < D -> N1 <= N2 -> rne N1 D <= rne N2 D.
Proof.
  intros HD HN.
  assert (Hq : N1 / D <= N2 / D) by (apply Z.div_le_mono; lia).
  destruct (Z.eq_dec (N1 / D) (N2 / D)) as [E|E].
  - assert (Hr : N1 mod D <= N2 mod D).
    { pose proof (Z.div_mod N1 D). pose proof (Z.div_mod N2 D).
      rewrite E in *. lia. }
    unfold rne. rewrite E.
    destruct (Z.compare_spec (2 * (N1 mod D)) D);
      destruct (Z.compare_spec (2 * (N2 mod D)) D);
      destruct (Z.even (N2 / D)); lia.
  - pose proof (rne_bounds N1 D HD). pose proof (rne_bounds N2 D HD). lia.
Qed.

Lemma rne_scale (k N D : Z) :
  0 < k -> 0 < D -> rne (k * N) (k * D) = rne N D.
Proof.
  intros Hk HD. unfold rne.
  rewrite Z.div_mul_cancel_l, Z.mul_mod_distr_l by lia.
  replace (2 * (k * (N mod D))) with (k * (2 * (N mod D))) by ring.
  destruct (Z.compare_spec (k * (2 * (N mod D))) (k * D));
    destruct (Z.compare_spec (2 * (N mod D)) D); try done; nia.
Qed.

Lemma rne_below (N D K : Z) :
  0 < D -> N <= K * D -> rne N D <= K.
Proof.
  intros HD HN.
  replace K with (rne (K * D) D); [by apply rne_mono|].
  rewrite rne_exact; [by apply Z.div_mul; lia | done | by apply Z.mod_mul; lia].
Qed.

Lemma rne_above (N D K : Z) :
  0 < D -> K * D <= N -> K <= rne N D.
Proof.
  intros HD HN.
  replace K with (rne (K * D) D); [by apply rne_mono|].
  rewrite rne_exact; [by apply Z.div_mul; lia | done | by apply Z.mod_mul; lia].
Qed.

Lemma fexp_normal (e : Z) : -1021 <= e -> fexp 53 1024 e = e - 53.
Proof. intros He. unfold fexp, emin. lia. Qed.

Lemma div_pow2_bounds (m a n : Z) :
  0 <= n -> 0 <= a ->
  2 ^ (a + n) <= m < 2 ^ (a + 1 + n) ->
  2 ^ a <= m / 2 ^ n < 2 ^ (a + 1).
Proof.
  intros Hn Ha [Hlo Hhi].
  assert (H2n : 0 < 2 ^ n) by (apply Z.pow_pos_nonneg; lia).
  rewrite Z.pow_add_r in Hlo, Hhi by lia. split.
  - apply Z.div_le_lower_bound; lia.
  - apply Z.div_lt_upper_bound; lia.
Qed.

(** Rounding a mantissa of [53 + n] digits that stands for [N / D]: the
    result is [N / (D * 2^n)] rounded to nearest even, with a carry into
    the exponent when that reaches 2^53. *)
Lemma binary_round_aux_spec (N D ex n : Z) :
  0 <= N -> 0 < D -> 0 <= n ->
  2 ^ (52 + n) <= N / D < 2 ^ (53 + n) ->
  -1074 <= ex + n -> ex + n < 971 ->
  2 ^ 52 <= rne N (D * 2 ^ n) <= 2 ^ 53
  /\ binary_round_aux 53 1024 false (N / D) ex (loc_of N D)
     = if rne N (D * 2 ^ n) =? 2 ^ 53
       then S754_finite false (Z.to_pos (2 ^ 52)) (ex + n + 1)
       else S754_finite false (Z.to_pos (rne N (D * 2 ^ n))) (ex + n).
Proof.
  intros HN HD Hn Hdig Hlo Hhi.
  assert (H2n : 0 < 2 ^ n) by (apply Z.pow_pos_nonneg; lia).
  assert (Hq : 2 ^ 52 <= N / (D * 2 ^ n) < 2 ^ 53).
  { rewrite <- Z.div_div by lia. by apply (div_pow2_bounds _ 52). }
  assert (HR : 2 ^ 52 <= rne N (D * 2 ^ n) <= 2 ^ 53).
  { pose proof (rne_bounds N (D * 2 ^ n)). lia. }
  split; [done|].
  set (R := rne N (D * 2 ^ n)) in *.
  unfold binary_round_aux, shr_fexp.
  rewrite (Zdigits2_unique (N / D) (53 + n)); [|by replace (53 + n - 1) with (52 + n) by lia|lia].
  rewrite fexp_normal by lia.
  replace (53 + n + ex - 53 - ex) with n by lia.
  destruct (represents_shr (shr_record_of_loc (N / D) (loc_of N D)) ex n N D)
    as [Hrep He]; [done..|apply represents_of_loc|].
  destruct (shr (shr_record_of_loc (N / D) (loc_of N D)) ex n) as [mrs' e'].
  simpl in Hrep, He. subst e'.
  rewrite (round_nearest_even_rne mrs' N (D * 2 ^ n)) by (done || lia).
  fold R.
  destruct (Z.eqb_spec R (2 ^ 53)) as [E|E].
  - rewrite E.
    rewrite (Zdigits2_unique (2 ^ 53) 54) by done.
    rewrite fexp_normal by lia.
    replace (54 + (ex + n) - 53 - (ex + n)) with 1 by lia.
    change (2 ^ 53) with 9007199254740992.
    change (Z.to_pos (2 ^ 52)) with 4503599627370496%positive.
    cbn. destruct (Z.leb_spec (ex + n + 1) (1024 - 53)); [done | lia].
  - rewrite (Zdigits2_unique R 53) by (simpl; lia).
    rewrite fexp_normal by lia.
    replace (53 + (ex + n) - 53 - (ex + n)) with 0 by lia.
    cbn [shr shr_record_of_loc shr_m].
    destruct R as [|r|r] eqn:ER; [lia| |lia].
    destruct (Z.leb_spec (ex + n) (1024 - 53)); [done | lia].
Qed.

Lemma Zpos_iter_xO (p k : positive) :
  Z.pos (Pos.iter xO p k) = Z.pos p * 2 ^ Z.pos k.
Proof.
  induction k as [|k IH] using Pos.peano_ind.
  - simpl. lia.
  - rewrite Pos.iter_succ, Pos2Z.inj_succ, Z.pow_succ_r by lia.
    replace (Z.pos (Pos.iter xO p k)~0) with (2 * Z.pos (Pos.iter xO p k)) by lia.
    rewrite IH. ring.
Qed.

Lemma rounded_is_normal (R E : Z) :
  2 ^ 52 <= R <= 2 ^ 53 ->
  exists m e,
    normal_float (if R =? 2 ^ 53
                  then S754_finite false (Z.to_pos (2 ^ 52)) (E + 1)
                  else S754_finite false (Z.to_pos R) E) m e
    /\ ((m = R /\ e = E) \/ (R = 2 ^ 53 /\ m = 2 ^ 52 /\ e = E + 1)).
Proof.
  intros HR. destruct (Z.eqb_spec R (2 ^ 53)) as [E'|E'].
  - exists (2 ^ 52), (E + 1). split; [split; [lia | done]|]. right. done.
  - exists R, E. split; [split; [lia | done]|]. by left.
Qed.

(** [Number] of a 64-bit reading: exact below 2^53, rounded to a multiple
    of [2^n] for a reading of [53 + n] digits. *)
Lemma Number_spec (t : Z) :
  0 < t < 2 ^ 64 ->
  exists m e,
    normal_float (Number t) m e
    /\ ((t < 2 ^ 53 /\ -52 <= e <= 0 /\ m = t * 2 ^ (- e))
        \/ (exists n, 1 <= n <= 11 /\ 2 ^ (52 + n) <= t < 2 ^ (53 + n)
              /\ ((m = rne t (2 ^ n) /\ e = n)
                  \/ (rne t (2 ^ n) = 2 ^ 53 /\ m = 2 ^ 52 /\ e = n + 1)))).
Proof.
  intros Ht. destruct t as [|p|p]; try lia.
  unfold Number, binary_normalize, binary_round.
  pose proof (digits2_pos_bounds p) as Hd.
  set (d := Z.pos (digits2_pos p)) in *.
  assert (Hd64 : 1 <= d <= 64).
  { split; [unfold d; lia|].
    destruct (Z_lt_le_dec 64 d); [|done].
    assert (2 ^ 64 <= 2 ^ (d - 1)) by (apply Z.pow_le_mono_r; lia). lia. }
  rewrite fexp_normal by lia.
  unfold shl_align.
  destruct (Z_lt_le_dec d 53) as [Hlt|Hge].
  - (* fewer than 53 digits: the mantissa is shifted up, nothing is lost *)
    destruct (d + 0 - 53 - 0) as [|k|k] eqn:Ek; try lia.
    assert (Hk : Z.pos k = 53 - d) by lia.
    pose proof (Zpos_iter_xO p k) as Hmz.
    set (mz := Pos.iter xO p k) in *.
    assert (Hmzb : 2 ^ 52 <= Z.pos mz < 2 ^ 53).
    { rewrite Hmz, Hk.
      assert (H52 : 2 ^ 52 = 2 ^ (d - 1) * 2 ^ (53 - d))
        by (rewrite <- Z.pow_add_r by lia; f_equal; lia).
      assert (H53 : 2 ^ 53 = 2 ^ d * 2 ^ (53 - d))
        by (rewrite <- Z.pow_add_r by lia; f_equal; lia).
      rewrite H52, H53.
      assert (0 < 2 ^ (53 - d)) by (apply Z.pow_pos_nonneg; lia). nia. }
    destruct (binary_round_aux_spec (Z.pos mz) 1 (d + 0 - 53) 0)
      as [HR Heq]; try lia.
    { rewrite Z.div_1_r. simpl. lia. }
    assert (Hrne : rne (Z.pos mz) (1 * 2 ^ 0) = Z.pos mz).
    { rewrite rne_exact; [apply Z.div_1_r | done | apply Z.mod_1_r]. }
    rewrite Hrne in Heq.
    assert (Hloc : loc_of (Z.pos mz) 1 = loc_Exact).
    { unfold loc_of. by rewrite Z.mod_1_r. }
    rewrite Z.div_1_r, Hloc in Heq. rewrite Heq.
    destruct (Z.eqb_spec (Z.pos mz) (2 ^ 53)); [lia|].
    exists (Z.pos mz), (d + 0 - 53 + 0). split; [done|]. left.
    split; [|split; [lia|]].
    + assert (2 ^ d <= 2 ^ 52) by (apply Z.pow_le_mono_r; lia).
      assert (2 ^ 52 < 2 ^ 53) by (apply Z.pow_lt_mono_r; lia).
      apply Z.lt_trans with (2 ^ d); [apply Hd|]. apply Z.le_lt_trans with (2 ^ 52); done.
    + rewrite Hmz, Hk. f_equal. f_equal. lia.
  - (* 53 digits or more: the mantissa is rounded to 53 digits *)
    assert (Halign : (match d + 0 - 53 - 0 with
                      | Z.neg k => (Pos.iter xO p k, d + 0 - 53)
                      | _ => (p, 0)
                      end) = (p, 0)) by (destruct (d + 0 - 53 - 0) eqn:E0; try done; lia).
    rewrite Halign.
    destruct (binary_round_aux_spec (Z.pos p) 1 0 (d - 53))
      as [HR Heq]; try lia.
    { rewrite Z.div_1_r. replace (52 + (d - 53)) with (d - 1) by lia.
      by replace (53 + (d - 53)) with d by lia. }
    assert (Hloc : loc_of (Z.pos p) 1 = loc_Exact).
    { unfold loc_of. by rewrite Z.mod_1_r. }
    rewrite Z.div_1_r, Hloc, Z.mul_1_l in Heq. rewrite Heq.
    rewrite Z.mul_1_l in HR.
    destruct (Z.eq_dec d 53) as [E53|N53].
    + (* exactly 53 digits: exact *)
      assert (Hrne : rne (Z.pos p) (2 ^ (d - 53)) = Z.pos p).
      { rewrite E53. simpl. rewrite rne_exact;
          [apply Z.div_1_r | done | apply Z.mod_1_r]. }
      rewrite Hrne. rewrite E53 in Hd.
      destruct (Z.eqb_spec (Z.pos p) (2 ^ 53)); [lia|].
      exists (Z.pos p), (0 + (d - 53)). split; [split; [lia | done]|].
      left. split; [lia|]. split; [lia|].
      replace (- (0 + (d - 53))) with 0 by lia. lia.
    + destruct (rounded_is_normal (rne (Z.pos p) (2 ^ (d - 53))) (0 + (d - 53)) HR)
        as (m & e & Hnorm & Hme).
      exists m, e. split; [done|]. right. exists (d - 53).
      split; [lia|]. split.
      * replace (52 + (d - 53)) with (d - 1) by lia.
        by replace (53 + (d - 53)) with d by lia.
      * destruct Hme as [[-> ->]|(HR53 & -> & ->)]; [left | right];
          repeat split; try done; lia.
Qed.

Lemma Number_million :
  Number 1000000 = S754_finite false (Z.to_pos million_mantissa) (-33).
Proof. vm_compute. reflexivity. Qed.

Lemma div_eucl_div_mod (a b : Z) : Z.div_eucl a b = (a / b, a mod b).
Proof. unfold Z.div, Z.modulo. by destruct (Z.div_eucl a b). Qed.

Lemma SFdiv_core_million (m1 e1 : Z) :
  2 ^ 52 <= m1 < 2 ^ 53 -> -52 <= e1 <= 12 ->
  SFdiv_core_binary 53 1024 m1 e1 million_mantissa (-33)
  = ((m1 * 2 ^ 53) / million_mantissa, e1 - 20,
     loc_of (m1 * 2 ^ 53) million_mantissa).
Proof.
  intros Hm He. unfold SFdiv_core_binary. cbv zeta.
  rewrite (Zdigits2_unique m1 53) by (simpl; lia).
  change (Zdigits2 million_mantissa) with 53.
  rewrite fexp_normal by lia.
  rewrite Z.min_l by lia.
  replace (e1 - -33 - (53 + e1 - (53 + -33) - 53)) with 53 by lia.
  rewrite Z.shiftl_mul_pow2 by lia.
  rewrite div_eucl_div_mod.
  replace (53 + e1 - (53 + -33) - 53) with (e1 - 20) by lia.
  done.
Qed.

(** The quotient by a million of a normal value, rounded down. *)
Lemma floor_div_million (m1 e1 : Z) :
  2 ^ 52 <= m1 < 2 ^ 53 -> -52 <= e1 <= 12 ->
  exists n,
    (n = 0 \/ n = 1)
    /\ 2 ^ 52 <= (m1 * 2 ^ (20 - n)) / 1000000 < 2 ^ 53
    /\ Math_floor (Number_div (S754_finite false (Z.to_pos m1) e1)
                     (Number 1000000))
       = rne (m1 * 2 ^ (20 - n)) 1000000 / 2 ^ (20 - e1 - n).
Proof.
  intros Hm He. rewrite Number_million.
  unfold Number_div. cbv beta iota delta [SFdiv].
  rewrite Z2Pos.id by lia.
  change (Z.pos (Z.to_pos million_mantissa)) with million_mantissa.
  rewrite SFdiv_core_million by done.
  change (xorb false false) with false.
  set (N := m1 * 2 ^ 53). set (D := million_mantissa).
  assert (HD : D = 1000000 * 2 ^ 33) by done.
  assert (H52 : 2 ^ 52 = 4503599627370496) by done.
  assert (H53 : 2 ^ 53 = 9007199254740992) by done.
  assert (HDv : D = 8589934592000000) by done.
  assert (Hn : exists n, (n = 0 \/ n = 1) /\ 2 ^ (52 + n) <= N / D < 2 ^ (53 + n)).
  { destruct (Z_lt_le_dec m1 D) as [Hlt|Hge].
    - exists 0. split; [by left|]. change (52 + 0) with 52. change (53 + 0) with 53.
      split.
      + apply Z.div_le_lower_bound; unfold N; lia.
      + apply Z.div_lt_upper_bound; unfold N; lia.
    - exists 1. split; [by right|]. change (52 + 1) with 53. change (53 + 1) with 54.
      assert (H54 : 2 ^ 54 = 18014398509481984) by done.
      split.
      + apply Z.div_le_lower_bound; unfold N; lia.
      + apply Z.div_lt_upper_bound; unfold N; lia. }
  destruct Hn as (n & Hn01 & Hq).
  assert (HN : 0 <= N) by (unfold N; lia).
  destruct (binary_round_aux_spec N D (e1 - 20) n) as [HR Heq];
    try lia.
  assert (H2n : 0 < 2 ^ n) by (apply Z.pow_pos_nonneg; lia).
  assert (Hscale : forall x, x * 2 ^ 53 = 2 ^ (33 + n) * (x * 2 ^ (20 - n))).
  { intros x. rewrite Z.mul_comm, (Z.mul_comm x), Z.mul_assoc.
    rewrite <- Z.pow_add_r by lia. f_equal. f_equal. lia. }
  assert (HDn : D * 2 ^ n = 2 ^ (33 + n) * 1000000).
  { rewrite HD, Z.pow_add_r by lia. ring. }
  assert (H2k : 0 < 2 ^ (33 + n)) by (apply Z.pow_pos_nonneg; lia).
  exists n. split; [done|]. split.
  - replace ((m1 * 2 ^ (20 - n)) / 1000000) with (N / (D * 2 ^ n)).
    + rewrite <- Z.div_div by lia. by apply (div_pow2_bounds _ 52); try lia.
    + unfold N. rewrite Hscale, HDn. apply Z.div_mul_cancel_l; lia.
  - rewrite Heq.
    assert (Hrne : rne N (D * 2 ^ n) = rne (m1 * 2 ^ (20 - n)) 1000000).
    { unfold N. rewrite Hscale, HDn. apply rne_scale; lia. }
    rewrite <- Hrne. set (R := rne N (D * 2 ^ n)) in *.
    destruct (Z.eqb_spec R (2 ^ 53)) as [E|E]; unfold Math_floor.
    + destruct (Z.leb_spec 0 (e1 - 20 + n + 1)); [lia|].
      rewrite Z2Pos.id by lia. rewrite E.
      replace (2 ^ 53) with (2 * 2 ^ 52) by done.
      replace (2 ^ (20 - e1 - n)) with (2 * 2 ^ (- (e1 - 20 + n + 1))).
      * symmetry. apply Z.div_mul_cancel_l; [|lia].
        apply Z.pow_nonzero; lia.
      * rewrite <- Z.pow_succ_r by lia. f_equal. lia.
    + destruct (Z.leb_spec 0 (e1 - 20 + n)); [lia|].
      rewrite Z2Pos.id by lia. f_equal. f_equal. lia.
Qed.

Lemma rne_error (N D : Z) :
  0 < D -> - D <= 2 * (rne N D * D - N) <= D.
Proof.
  intros HD. unfold rne.
  pose proof (Z.div_mod N D ltac:(lia)) as Hdm.
  pose proof (Z.mod_pos_bound N D HD) as Hb.
  destruct (Z.compare_spec (2 * (N mod D)) D);
    [destruct (Z.even (N / D))| |]; nia.
Qed.

Lemma rne_round_down (N D M r : Z) :
  0 < D -> 0 <= r -> 2 * r < D -> N <= M * D + r -> rne N D <= M.
Proof.
  intros HD Hr Hr2 HN.
  replace M with (rne (M * D + r) D); [by apply rne_mono|].
  unfold rne.
  assert (Hq : (M * D + r) / D = M).
  { symmetry. apply Z.div_unique with r; lia. }
  assert (Hm : (M * D + r) mod D = r).
  { symmetry. apply Z.mod_unique with M; lia. }
  rewrite Hq, Hm.
  destruct (Z.compare_spec (2 * r) D); [lia | done | lia].
Qed.

(** The stamp in integer arithmetic: the reading is rounded to 53 binary
    digits, the quotient by 10^6 is rounded to 53 binary digits (scaled by
    [2^g] it lies in [[2^52, 2^53)]), and the result is rounded down. *)
Lemma getCurrentDate_spec (t : Z) :
  0 < t < 2 ^ 64 ->
  exists T g,
    rounded_reading t T
    /\ 7 <= g <= 72
    /\ 2 ^ 52 <= (T * 2 ^ g) / 1000000 < 2 ^ 53
    /\ getCurrentDate t = rne (T * 2 ^ g) 1000000 / 2 ^ g.
Proof.
  intros Ht. unfold getCurrentDate. cbv zeta.
  destruct (Number_spec t Ht) as (m & e & [Hm ->] & Hcases).
  assert (He : -52 <= e <= 12).
  { destruct Hcases as [(_ & He & _)|(n & Hn & _ & [[_ ->]|(_ & _ & ->)])];
      lia. }
  destruct (floor_div_million m e Hm He) as (n' & Hn' & Hbin & Hfloor).
  rewrite Hfloor.
  assert (Hscaled : exists T, rounded_reading t T
            /\ m * 2 ^ (20 - n') = T * 2 ^ (20 - e - n')).
  { destruct Hcases as [(Ht53 & He0 & ->)|(n & Hn & Htn & [[-> ->]|(HR & -> & ->)])].
    - exists t. split; [by left|].
      rewrite <- Z.mul_assoc, <- Z.pow_add_r by lia. f_equal. f_equal. lia.
    - exists (rne t (2 ^ n) * 2 ^ n). split; [right; by exists n|].
      rewrite <- Z.mul_assoc, <- Z.pow_add_r by lia. f_equal. f_equal. lia.
    - exists (rne t (2 ^ n) * 2 ^ n). split; [right; by exists n|].
      rewrite HR. rewrite <- Z.mul_assoc, <- !Z.pow_add_r by lia.
      f_equal. lia. }
  destruct Hscaled as (T & HT & Heq).
  exists T, (20 - e - n'). rewrite <- Heq. split; [done|].
  split; [lia|]. done.
Qed.

Lemma pow2_ge (a b : Z) : 0 <= a <= b -> 2 ^ a <= 2 ^ b.
Proof. intros H. apply Z.pow_le_mono_r; lia. Qed.

Lemma rounded_reading_near (t T : Z) :
  0 < t -> rounded_reading t T -> t - 1024 <= T <= t + 1024.
Proof.
  intros Ht [[_ ->]|(n & Hn & _ & ->)]; [lia|].
  assert (H2n : 0 < 2 ^ n) by (apply Z.pow_pos_nonneg; lia).
  pose proof (rne_error t (2 ^ n) H2n).
  pose proof (pow2_ge n 11 ltac:(lia)).
  assert (2 ^ 11 = 2048) by done. lia.
Qed.

(** X16. For a reading below 2^53 nanoseconds (about 104 days) the stamp
    is the exact millisecond truncation of the reading. *)
Theorem getCurrentDate_exact_below_2_53 (t : Z) :
  0 <= t < 2 ^ 53 -> getCurrentDate t = t / 1000000.
Proof.
  intros Ht. destruct (Z.eq_dec t 0) as [->|Hne]; [done|].
  assert (H5364 : 2 ^ 53 < 2 ^ 64) by done.
  destruct (getCurrentDate_spec t ltac:(lia))
    as (T & g & HT & Hg & Hbin & ->).
  assert (T = t) as ->.
  { destruct HT as [[_ ->]|(n & Hn & Htn & _)]; [done|].
    pose proof (pow2_ge 53 (52 + n) ltac:(lia)). lia. }
  assert (H2g : 0 < 2 ^ g) by (apply Z.pow_pos_nonneg; lia).
  assert (H52 : 2 ^ 52 = 4503599627370496) by done.
  assert (H53 : 2 ^ 53 = 9007199254740992) by done.
  assert (Hg19 : 524288 <= 2 ^ g).
  { destruct (Z_lt_le_dec g 19) as [Hlt|Hge].
    - exfalso. pose proof (pow2_ge g 18 ltac:(lia)).
      assert (2 ^ 18 = 262144) by done.
      assert (4503599627370496 * 1000000 <= t * 2 ^ g); [|nia].
      destruct Hbin as [Hlo _]. rewrite H52 in Hlo.
      pose proof (Z.mul_div_le (t * 2 ^ g) 1000000 ltac:(lia)). lia.
    - pose proof (pow2_ge 19 g ltac:(lia)).
      assert (2 ^ 19 = 524288) by done. lia. }
  set (k := t / 1000000).
  pose proof (Z.div_mod t 1000000 ltac:(lia)) as Hdm. fold k in Hdm.
  pose proof (Z.mod_pos_bound t 1000000 ltac:(lia)) as Hrho.
  set (R := rne (t * 2 ^ g) 1000000).
  assert (Hlo : k * 2 ^ g <= R).
  { apply rne_above; [lia | nia]. }
  assert (Hhi : R <= (k + 1) * 2 ^ g - 1).
  { destruct (Z_lt_le_dec (2 ^ g) 1000000) as [Hsmall|Hbig].
    - apply (rne_round_down _ _ _ (1000000 - 2 ^ g)); [lia | lia | lia | nia].
    - apply rne_below; [lia | nia]. }
  symmetry. apply Z.div_unique with (R - k * 2 ^ g); lia.
Qed.

(** X17. For every 64-bit reading the stamp differs from the exact
    millisecond truncation of the reading by at most one millisecond. *)
Theorem getCurrentDate_within_one_millisecond (t : Z) :
  0 <= t < 2 ^ 64 ->
  t / 1000000 - 1 <= getCurrentDate t <= t / 1000000 + 1.
Proof.
  intros Ht. destruct (Z.eq_dec t 0) as [->|Hne]; [done|].
  destruct (getCurrentDate_spec t ltac:(lia))
    as (T & g & HT & Hg & Hbin & ->).
  pose proof (rounded_reading_near t T ltac:(lia) HT) as HTt.
  assert (H2g : 128 <= 2 ^ g).
  { pose proof (pow2_ge 7 g ltac:(lia)). assert (2 ^ 7 = 128) by done. lia. }
  set (k := t / 1000000).
  pose proof (Z.div_mod t 1000000 ltac:(lia)) as Hdm. fold k in Hdm.
  pose proof (Z.mod_pos_bound t 1000000 ltac:(lia)) as Hrho.
  set (R := rne (T * 2 ^ g) 1000000).
  assert (Hlo : (k - 1) * 2 ^ g <= R).
  { apply rne_above; [lia | nia]. }
  assert (Hhi : R <= (k + 2) * 2 ^ g - 1).
  { apply rne_below; [lia | nia]. }
  split.
  - apply Z.div_le_lower_bound; lia.
  - assert (R / 2 ^ g < k + 2); [|lia].
    apply Z.div_lt_upper_bound; lia.
Qed.

Lemma rounded_reading_mono (t1 t2 T1 T2 : Z) :
  0 < t1 <= t2 ->
  rounded_reading t1 T1 -> rounded_reading t2 T2 -> T1 <= T2.
Proof.
  intros Ht [[H1 ->]|(n1 & Hn1 & Ht1 & ->)] [[H2 ->]|(n2 & Hn2 & Ht2 & ->)].
  - lia.
  - assert (H2n : 0 < 2 ^ n2) by (apply Z.pow_pos_nonneg; lia).
    assert (2 ^ 52 <= rne t2 (2 ^ n2)).
    { apply rne_above; [done|]. rewrite <- Z.pow_add_r; lia. }
    pose proof (pow2_ge 53 (52 + n2) ltac:(lia)) as Hp.
    rewrite Z.pow_add_r in Hp by lia. nia.
  - pose proof (pow2_ge 53 (52 + n1) ltac:(lia)). lia.
  - assert (H2n1 : 0 < 2 ^ n1) by (apply Z.pow_pos_nonneg; lia).
    assert (H2n2 : 0 < 2 ^ n2) by (apply Z.pow_pos_nonneg; lia).
    destruct (Z.lt_total n1 n2) as [Hlt|[->|Hgt]].
    + assert (rne t1 (2 ^ n1) <= 2 ^ 53).
      { apply rne_below; [done|]. rewrite <- Z.pow_add_r; lia. }
      assert (2 ^ 52 <= rne t2 (2 ^ n2)).
      { apply rne_above; [done|]. rewrite <- Z.pow_add_r; lia. }
      pose proof (pow2_ge (53 + n1) (52 + n2) ltac:(lia)) as Hp.
      rewrite !Z.pow_add_r in Hp by lia. nia.
    + apply Z.mul_le_mono_nonneg_r; [lia|]. apply rne_mono; lia.
    + exfalso. pose proof (pow2_ge (53 + n2) (52 + n1) ltac:(lia)). lia.
Qed.

Lemma rounded_reading_pos (t T : Z) :
  0 < t -> rounded_reading t T -> 0 < T.
Proof.
  intros Ht [[_ ->]|(n & Hn & Htn & ->)]; [done|].
  assert (H2n : 0 < 2 ^ n) by (apply Z.pow_pos_nonneg; lia).
  assert (2 ^ 52 <= rne t (2 ^ n)).
  { apply rne_above; [done|]. rewrite <- Z.pow_add_r; lia. }
  assert (0 < 2 ^ 52) by done. nia.
Qed.

Lemma getCurrentDate_le (t1 t2 : Z) :
  0 <= t1 <= t2 -> t2 < 2 ^ 64 ->
  getCurrentDate t1 <= getCurrentDate t2.
Proof.
  intros Ht Ht2.
  destruct (Z.eq_dec t1 0) as [->|Hne1].
  - change (getCurrentDate 0) with 0.
    destruct (Z.eq_dec t2 0) as [->|Hne2]; [done|].
    destruct (getCurrentDate_spec t2 ltac:(lia)) as (T & g & HT & Hg & Hbin & ->).
    apply Z.div_pos; [|apply Z.pow_pos_nonneg; lia].
    apply (rne_above _ _ 0); [lia|].
    pose proof (rounded_reading_pos t2 T ltac:(lia) HT).
    assert (0 < 2 ^ g) by (apply Z.pow_pos_nonneg; lia). nia.
  - destruct (getCurrentDate_spec t1 ltac:(lia))
      as (T1 & g1 & HT1 & Hg1 & Hbin1 & ->).
    destruct (getCurrentDate_spec t2 ltac:(lia))
      as (T2 & g2 & HT2 & Hg2 & Hbin2 & ->).
    pose proof (rounded_reading_mono t1 t2 T1 T2 ltac:(lia) HT1 HT2) as HT.
    pose proof (rounded_reading_pos t1 T1 ltac:(lia) HT1) as HT1pos.
    assert (H2g1 : 0 < 2 ^ g1) by (apply Z.pow_pos_nonneg; lia).
    assert (H2g2 : 0 < 2 ^ g2) by (apply Z.pow_pos_nonneg; lia).
    assert (H52 : 2 ^ 52 = 4503599627370496) by done.
    assert (H53 : 2 ^ 53 = 9007199254740992) by done.
    (* the scaled quotients lie in [2^52 * 10^6, 2^53 * 10^6) *)
    assert (Hlo1 : 2 ^ 52 * 1000000 <= T1 * 2 ^ g1).
    { pose proof (Z.mul_div_le (T1 * 2 ^ g1) 1000000 ltac:(lia)). lia. }
    assert (Hlo2 : 2 ^ 52 * 1000000 <= T2 * 2 ^ g2).
    { pose proof (Z.mul_div_le (T2 * 2 ^ g2) 1000000 ltac:(lia)). lia. }
    assert (Hhi1 : T1 * 2 ^ g1 < 2 ^ 53 * 1000000).
    { pose proof (Z.mul_succ_div_gt (T1 * 2 ^ g1) 1000000 ltac:(lia)). lia. }
    assert (Hhi2 : T2 * 2 ^ g2 < 2 ^ 53 * 1000000).
    { pose proof (Z.mul_succ_div_gt (T2 * 2 ^ g2) 1000000 ltac:(lia)). lia. }
    destruct (Z.lt_total g1 g2) as [Hlt|[->|Hgt]].
    + exfalso.
      assert (Hp : 2 ^ g2 = 2 ^ (g2 - g1) * 2 ^ g1)
        by (rewrite <- Z.pow_add_r by lia; f_equal; lia).
      pose proof (pow2_ge 1 (g2 - g1) ltac:(lia)) as Hp1.
      change (2 ^ 1) with 2 in Hp1. nia.
    + apply Z.div_le_mono; [lia|]. apply rne_mono; [lia | nia].
    + assert (HR1 : rne (T1 * 2 ^ g1) 1000000 <= 2 ^ 53).
      { apply rne_below; lia. }
      assert (HR2 : 2 ^ 52 <= rne (T2 * 2 ^ g2) 1000000).
      { apply rne_above; lia. }
      apply Z.le_trans with (2 ^ 53 / 2 ^ g1); [apply Z.div_le_mono; lia|].
      apply Z.le_trans with (2 ^ 52 / 2 ^ g2); [|apply Z.div_le_mono; lia].
      apply Z.le_trans with (2 ^ 53 / (2 * 2 ^ g2)).
      * apply Z.div_le_compat_l; [lia|]. split; [lia|].
        replace (2 * 2 ^ g2) with (2 ^ (g2 + 1))
          by (rewrite Z.pow_add_r by lia; lia).
        apply pow2_ge. lia.
      * replace (2 ^ 53) with (2 * 2 ^ 52) by done.
        rewrite Z.div_mul_cancel_l by lia. lia.
Qed.

(** X18. The stamp never goes back: a later 64-bit reading gives a stamp
    that is not earlier. *)
Theorem getCurrentDate_monotone (t1 t2 : Z) :
  0 <= t1 <= t2 -> t2 < 2 ^ 64 ->
  getCurrentDate t1 <= getCurrentDate t2.
Proof. apply getCurrentDate_le. Qed.

End Binary64.

(** The one-millisecond bound is reached on both sides: a reading just
    below a boundary is stamped one millisecond late, and a reading on a
    boundary can be stamped one millisecond early. *)
Example getCurrentDate_bound_is_reached :
  getCurrentDate reading_before_boundary
  = millisecond_truncation reading_before_boundary + 1
  /\ getCurrentDate reading_on_boundary
     = millisecond_truncation reading_on_boundary - 1
  /\ reading_on_boundary mod 1000000 = 0.
Proof. repeat split; vm_compute; reflexivity. Qed.

(* ===================================================================== *)
(** ** Stamps under the canister clock *)
(* ===================================================================== *)

Section CanisterClock.

(** The stamps of readings that never decrease never decrease. *)
Lemma getCurrentDate_sorted (times : list Z) :
  Forall is_nat64 times ->
  Sorted Z.le times ->
  Sorted Z.le (getCurrentDate <$> times).
Proof.
  intros Hrange Hsorted.
  apply Sorted_StronglySorted in Hsorted; [|intros x y z; lia].
  apply StronglySorted_Sorted.
  induction Hsorted as [|t times Hsorted IH Hle]; [constructor|].
  apply Forall_cons in Hrange as [Ht Hrange].
  rewrite fmap_cons. constructor; [by apply IH|].
  apply Forall_forall. intros r Hr.
  apply list_elem_of_fmap in Hr as (t' & -> & Hin).
  rewrite Forall_forall in Hrange. specialize (Hrange _ Hin).
  rewrite Forall_forall in Hle. specialize (Hle _ Hin).
  unfold is_nat64 in *. apply getCurrentDate_le; lia.
Qed.

Lemma update_stamps_of_times (steps : list (Host * PartialMessage)) :
  update_stamps steps = getCurrentDate <$> update_times steps.
Proof.
  unfold update_stamps, update_times. by rewrite <- list_fmap_compose.
Qed.

(** X19. When the values of [ic.time()] at the creation of a message and
    at its updates are 64-bit readings that never decrease, the clock
    values stamped on it never decrease either, and the message has
    [createdAt <= updatedAt] after any sequence of [update] steps. *)
Theorem stamps_ordered_by_ic_time (h0 : Host) (data : PartialMessage)
    (m0 : Message) (steps : list (Host * PartialMessage)) :
  create h0 data = inr m0 ->
  Forall is_nat64 (ic_time h0 :: update_times steps) ->
  Sorted Z.le (ic_time h0 :: update_times steps) ->
  Sorted Z.le (getCurrentDate (ic_time h0) :: update_stamps steps)
  /\ stamps_ordered (updated m0 steps).
Proof.
  intros Hc Hrange Hsorted.
  assert (Hs : Sorted Z.le
                 (getCurrentDate (ic_time h0) :: update_stamps steps)).
  { rewrite update_stamps_of_times.
    by apply (getCurrentDate_sorted (ic_time h0 :: update_times steps)). }
  split; [done|].
  apply create_stamps in Hc as (_ & Hcreated & Hnone).
  intros u Hu. rewrite updated_updatedAt, Hnone in Hu.
  rewrite updated_keeps_createdAt, Hcreated.
  apply (sorted_le_last _ (update_stamps steps)); [done|].
  by destruct (last (update_stamps steps)).
Qed.

End CanisterClock.

(* ===================================================================== *)
(** ** Routing *)
(* ===================================================================== *)

Section Routing.

Lemma match_path_parameter (name segment : string) :
  lower_ascii name = "messages"%string ->
  segment <> EmptyString ->
  match_path [Literal "messages"; Named] [name; segment]
  = Some (Some segment).
Proof.
  intros Hname Hseg. cbn [match_path]. rewrite Hname.
  change (lower_ascii "messages") with "messages"%string.
  rewrite String.eqb_refl. by destruct segment.
Qed.

Lemma named_covers_search (path : list string) (param : option string) :
  match_path [Literal "messages"; Literal "search"] path = Some param ->
  exists segment,
    match_path [Literal "messages"; Named] path = Some (Some segment).
Proof.
  destruct path as [|name [|segment [|extra path]]]; cbn [match_path];
    try done.
  - by destruct (String.eqb _ _).
  - destruct (String.eqb (lower_ascii "messages") (lower_ascii name));
      [|done].
    destruct segment as [|c segment]; [done|]. intros _. by eexists.
  - destruct (String.eqb (lower_ascii "messages") (lower_ascii name));
      [|done].
    by destruct (String.eqb (lower_ascii "search") (lower_ascii segment)).
Qed.

Lemma first_match_never_search (req : Request) (param : option string) :
  first_match routes req <> Some (SearchHandler, param).
Proof.
  unfold routes. cbn [first_match].
  destruct (req_verb req); cbn [verb_eqb].
  - destruct (match_path [Literal "messages"] (req_path req)); [done|].
    destruct (match_path [Literal "messages"; Named] (req_path req))
      eqn:Eid; [done|].
    destruct (match_path [Literal "messages"; Literal "search"]
                (req_path req)) eqn:Esearch; [|done].
    apply named_covers_search in Esearch as [segment Hseg]. congruence.
  - by destruct (match_path [Literal "messages"] (req_path req)).
  - by destruct (match_path [Literal "messages"; Named] (req_path req)).
  - by destruct (match_path [Literal "messages"; Named] (req_path req)).
Qed.

Lemma dispatch_get_by_id (req : Request) (name segment : string) :
  req_verb req = VGet ->
  req_path req = [name; segment] ->
  lower_ascii name = "messages"%string ->
  segment <> EmptyString ->
  dispatch req = Some (GetOne segment).
Proof.
  intros Hv Hp Hname Hseg.
  unfold dispatch, routes. cbn [first_match]. rewrite Hv, Hp.
  cbn [verb_eqb].
  assert (Hone : match_path [Literal "messages"] [name; segment] = None).
  { cbn [match_path].
    by destruct (String.eqb (lower_ascii "messages") (lower_ascii name)). }
  by rewrite Hone, (match_path_parameter name segment Hname Hseg).
Qed.

(** X20. Requests never reach the search handler: the route
    [/messages/:id], registered before [/messages/search], takes every GET
    of a two-segment path under [/messages], so that
    [GET /messages/search] is answered by the get-by-id handler with
    "search" as the id. *)
Theorem search_route_is_shadowed (req : Request) :
  (forall q, dispatch req <> Some (Search q))
  /\ (forall name segment,
        req_verb req = VGet ->
        req_path req = [name; segment] ->
        lower_ascii name = "messages"%string ->
        segment <> EmptyString ->
        dispatch req = Some (GetOne segment))
  /\ (forall h s,
        req_verb req = VGet ->
        req_path req = ["messages"; "search"]%string ->
        exists c, dispatch req = Some c
                  /\ handle h c s = get_message "search" s).
Proof.
  split; [|split; [apply dispatch_get_by_id|]].
  - intros q. unfold dispatch.
    destruct (first_match routes req) as [[handler param]|] eqn:E; [|done].
    destruct handler; try (destruct param; done).
    by apply first_match_never_search in E.
  - intros h s Hv Hp. exists (GetOne "search"). split; [|done].
    by apply (dispatch_get_by_id req "messages" "search").
Qed.

End Routing.

End Program.

(* ===================================================================== *)
(** ** The sample lower-casing *)
(* ===================================================================== *)

Lemma lower_sample_ascii (s : string) :
  forall after_letter,
    is_ascii s = true -> lower_sample after_letter s = lower_ascii s.
Proof.
  induction s as [|c s IH]; intros after_letter Hs; [done|].
  cbn [is_ascii] in Hs. apply andb_true_iff in Hs as [Hc Hs].
  apply N.ltb_lt in Hc.
  cbn [lower_sample lower_ascii]. unfold lower_ascii_unit.
  destruct (is_ascii_capital (N_of_ascii c)) eqn:Ecap;
    [by rewrite IH|].
  destruct (is_ascii_small (N_of_ascii c)); [by rewrite IH|].
  destruct (N.eqb_spec (N_of_ascii c) 206) as [E|_]; [lia|].
  destruct (N.eqb_spec (N_of_ascii c) 207) as [E|_]; [lia|].
  by rewrite IH.
Qed.

Lemma lower_sample_empty (s : string) :
  forall after_letter, lower_sample after_letter s = EmptyString ->
                       s = EmptyString.
Proof.
  destruct s as [|c s]; intros after_letter; [done|].
  cbn [lower_sample]. repeat case_match; discriminate.
Qed.

(** The sample lower-casing has the two properties assumed of
    [toLowerCase]. *)
Lemma toLowerCase_sample_ok : is_toLowerCase toLowerCase_sample.
Proof.
  split.
  - intros s. apply lower_sample_ascii.
  - intros s. apply lower_sample_empty.
Qed.

(** The sample lower-casing on Basic Latin and on Greek: a capital sigma
    at the end of a word becomes the final sigma. *)
Example toLowerCase_samples :
  toLowerCase_sample "Hello World" = "hello world"%string
  /\ toLowerCase_sample capital_sigma = "σ"%string
  /\ toLowerCase_sample (title alpha_sigma) = "ας"%string
  /\ includes "ας" "σ" = false.
Proof. repeat split; vm_compute; reflexivity. Qed.

Example includes_samples :
  includes "cat sat" "at" = true
  /\ includes "dog ran" "at" = false
  /\ includes "abc" EmptyString = true.
Proof. repeat split; reflexivity. Qed.

(** The listing of the store that holds the two sample records. *)
Lemma cat_and_dog_values :
  StableBTreeMap.values cat_and_dog = [cat_sat; dog_ran].
Proof. vm_compute. reflexivity. Qed.

Lemma cat_and_dog_ascii (m : Message) :
  m ∈ StableBTreeMap.values cat_and_dog -> ascii_text m.
Proof.
  rewrite cat_and_dog_values. intros Hm.
  apply elem_of_cons in Hm as [->|Hm]; [split; reflexivity|].
  apply elem_of_cons in Hm as [->|Hm]; [split; reflexivity|].
  by apply elem_of_nil in Hm.
Qed.

(* ===================================================================== *)
(** ** The search on text outside ASCII *)
(* ===================================================================== *)

(** C5, counterexample.  The stored title is a capital alpha followed by a
    capital sigma and the query is a capital sigma: the title contains the
    query as it stands, but lower-casing turns the sigma of the title into
    the final sigma and the sigma of the query into the plain one, and the
    search returns nothing. *)
Lemma search_misses_capital_sigma :
  capital_sigma <> EmptyString
  /\ StableBTreeMap.values store_with_alpha_sigma = [alpha_sigma]
  /\ contains (title alpha_sigma) capital_sigma
  /\ matches capital_sigma alpha_sigma
  /\ search_messages toLowerCase_sample (Some capital_sigma)
       store_with_alpha_sigma
     = (store_with_alpha_sigma, res_json (JsonMessages []))
  /\ ~ (forall results,
          search_messages toLowerCase_sample (Some capital_sigma)
            store_with_alpha_sigma
          = (store_with_alpha_sigma, res_json (JsonMessages results)) ->
          subset_where (matches capital_sigma)
            (StableBTreeMap.values store_with_alpha_sigma) results).
Proof.
  assert (Hvalues : StableBTreeMap.values store_with_alpha_sigma
                    = [alpha_sigma]) by (vm_compute; reflexivity).
  assert (Hmatch : matches capital_sigma alpha_sigma).
  { left. exists "Α"%string, capital_sigma, EmptyString.
    split; [reflexivity|]. repeat split; by left. }
  assert (Hsearch : search_messages toLowerCase_sample (Some capital_sigma)
                      store_with_alpha_sigma
                    = (store_with_alpha_sigma, res_json (JsonMessages [])))
    by (vm_compute; reflexivity).
  split; [discriminate|]. split; [exact Hvalues|]. split.
  { exists "Α"%string, EmptyString. reflexivity. }
  split; [exact Hmatch|]. split; [exact Hsearch|].
  intros Hall. specialize (Hall [] Hsearch). rewrite Hvalues in Hall.
  inversion Hall as [| |x l r Hno _]. by apply Hno.
Qed.

(* ===================================================================== *)
(** ** The properties at sample inputs *)
(* ===================================================================== *)

Lemma get_after_insert_witness :
  StableBTreeMap.get "id-1"
    (StableBTreeMap.insert "id-1" hello_world_created ∅)
  = OptSome hello_world_created
  /\ (post_messages host_1 hello_world ∅).2
     = res_json (JsonMessage hello_world_created)
  /\ (get_message "id-1" (post_messages host_1 hello_world ∅).1).2
     = res_json (JsonOpt (OptSome hello_world_created)).
Proof.
  destruct (get_after_insert ∅ hello_world_created)
    as (Hget & _ & _ & _ & Hpost).
  split; [exact Hget|].
  apply (Hpost host_1 hello_world). vm_compute. reflexivity.
Defined.

Lemma search_returns_matching_subset_witness :
  (exists results,
     search_messages toLowerCase_sample (Some "AT"%string) cat_and_dog
     = (cat_and_dog, res_json (JsonMessages results))
     /\ subset_where (matches "AT") (StableBTreeMap.values cat_and_dog)
          results
     /\ results = [cat_sat])
  /\ search_messages toLowerCase_sample None cat_and_dog
     = (cat_and_dog, sendError query_required_message 400).
Proof.
  destruct (search_returns_matching_subset toLowerCase_sample cat_and_dog
              toLowerCase_sample_ok) as (Hq & Hnone & _).
  split; [|exact Hnone].
  destruct (Hq "AT"%string) as (results & Hres & _ & Hascii & _);
    [discriminate|].
  exists results. split; [exact Hres|].
  assert (Hq_ascii : is_ascii "AT" = true) by reflexivity.
  destruct (Hascii Hq_ascii cat_and_dog_ascii) as [Hsub _].
  split; [exact Hsub|].
  assert (E : search_messages toLowerCase_sample (Some "AT"%string) cat_and_dog
              = (cat_and_dog, res_json (JsonMessages [cat_sat])))
    by (vm_compute; reflexivity).
  rewrite E in Hres. by injection Hres.
Defined.


Lemma create_empty_attachment_is_absent_witness :
  create host_1 hello_world_empty_attachment = create host_1 hello_world
  /\ create host_1 hello_world_empty_attachment = inr hello_world_created
  /\ exists m, create host_1 hello_world_empty_attachment = inr m
               /\ attachmentURL m = None
               /\ title m = "Hello"%string /\ body m = "World"%string.
Proof.
  destruct (create_empty_attachment_is_absent host_1
              hello_world_empty_attachment hello_world)
    as (Hsame & _ & Hbuilt); try reflexivity.
  split; [exact Hsame|]. split; [vm_compute; reflexivity|].
  apply (Hbuilt "Hello"%string "World"%string);
    reflexivity || discriminate.
Defined.

Lemma create_ignores_identity_and_stamps_witness :
  create host_1 hello_world_forged = create host_1 hello_world
  /\ create host_1 hello_world_forged = inr hello_world_created
  /\ exists m, create host_1 hello_world_forged = inr m
               /\ id m = uuidv4 host_1
               /\ createdAt m = getCurrentDate (ic_time host_1)
               /\ updatedAt m = None.
Proof.
  destruct (create_ignores_identity_and_stamps host_1)
    as (Hsame & _ & Hbuilt).
  split; [apply Hsame; reflexivity|]. split; [vm_compute; reflexivity|].
  apply (Hbuilt hello_world_forged "Hello"%string "World"%string);
    reflexivity || discriminate.
Defined.

Lemma post_messages_rejects_invalid_witness :
  post_messages host_1 empty_title ∅ = (∅, sendError required_message 400).
Proof.
  apply (post_messages_rejects_invalid host_1 ∅ empty_title).
  right. left. reflexivity.
Defined.

Lemma post_messages_stores_record_witness :
  post_messages host_1 hello_world ∅
  = (<[uuidv4 host_1 := hello_world_created]> ∅,
     res_json (JsonMessage hello_world_created))
  /\ (forall k, k <> uuidv4 host_1 ->
        (post_messages host_1 hello_world ∅).1 !! k
        = (∅ : gmap string Message) !! k)
  /\ ((∅ : gmap string Message) !! uuidv4 host_1 = None ->
      StableBTreeMap.values (post_messages host_1 hello_world ∅).1
      ≡ₚ hello_world_created :: StableBTreeMap.values ∅).
Proof.
  apply (post_messages_stores_record host_1 ∅ hello_world hello_world_created).
  vm_compute. reflexivity.
Defined.

Lemma put_message_never_updates_witness :
  (put_message host_2 "id-1" new_body store_with_hello).1 = store_with_hello
  /\ (put_message host_2 "id-1" new_body store_with_hello).2
     = sendError "message.update is not a function" 400
  /\ (get_message "id-1"
        (put_message host_2 "id-1" new_body store_with_hello).1).2
     = res_json (JsonOpt (OptSome hello_world_created)).
Proof.
  destruct (put_message_never_updates host_2 store_with_hello "id-1" new_body)
    as (Hstore & _ & Hstored & Hget).
  split; [exact Hstore|]. split.
  - apply (Hstored hello_world_created). vm_compute. reflexivity.
  - rewrite Hget. vm_compute. reflexivity.
Defined.

Lemma delete_message_removes_record_witness :
  delete_message "id-1" store_with_hello
  = (delete "id-1"%string store_with_hello,
     res_json (JsonOpt (OptSome hello_world_created)))
  /\ delete_message "id-1" (delete_message "id-1" store_with_hello).1
     = (delete "id-1"%string store_with_hello, res_json (JsonOpt OptNone))
  /\ StableBTreeMap.values store_with_hello
     ≡ₚ hello_world_created
        :: StableBTreeMap.values (delete_message "id-1" store_with_hello).1.
Proof.
  apply (delete_message_removes_record store_with_hello "id-1"
           hello_world_created).
  vm_compute. reflexivity.
Defined.

Lemma reachable_keys_are_ids_witness :
  run toLowerCase_sample create_then_update ∅ !! "id-1"%string
  = Some hello_world_created
  /\ id hello_world_created = "id-1"%string.
Proof.
  assert (Hm : run toLowerCase_sample create_then_update ∅ !! "id-1"%string
               = Some hello_world_created) by (vm_compute; reflexivity).
  split; [exact Hm|].
  exact (reachable_keys_are_ids toLowerCase_sample create_then_update "id-1"
           hello_world_created Hm).
Defined.

Lemma put_then_list_creates_nothing (h : Host) (c : Call) (m0 : Message) :
  (h, c) ∈ put_then_list -> creates h c m0 -> id m0 <> "id-1"%string.
Proof.
  unfold put_then_list. intros Hin (data & -> & _).
  apply elem_of_cons in Hin as [Hin|Hin]; [discriminate Hin|].
  apply list_elem_of_singleton in Hin. discriminate Hin.
Defined.

Lemma stored_record_is_fixed_witness :
  exists m',
    run toLowerCase_sample put_then_list store_with_hello !! "id-1"%string
    = Some m'
    /\ m' = hello_world_created.
Proof.
  assert (Hm : run toLowerCase_sample put_then_list store_with_hello
               !! "id-1"%string = Some hello_world_created)
    by (vm_compute; reflexivity).
  exists hello_world_created. split; [exact Hm|].
  apply (stored_record_is_fixed toLowerCase_sample put_then_list
           store_with_hello "id-1" hello_world_created hello_world_created).
  - vm_compute. reflexivity.
  - exact Hm.
  - exact put_then_list_creates_nothing.
Defined.

Lemma stored_record_comes_from_create_witness :
  exists h req_body,
    (h, Post req_body) ∈ create_then_update
    /\ create h req_body = inr hello_world_created
    /\ "id-1"%string = uuidv4 h
    /\ id hello_world_created = uuidv4 h
    /\ createdAt hello_world_created = getCurrentDate (ic_time h)
    /\ updatedAt hello_world_created = None.
Proof.
  apply (stored_record_comes_from_create toLowerCase_sample
           create_then_update "id-1" hello_world_created).
  vm_compute. reflexivity.
Defined.

Lemma created_fields_are_non_empty_witness :
  create host_1 hello_world_attached = inr hello_world_attached_created
  /\ title hello_world_attached_created <> EmptyString
  /\ body hello_world_attached_created <> EmptyString
  /\ attachmentURL hello_world_attached_created <> Some EmptyString
  /\ attachmentURL hello_world_attached_created = Some "http://x"%string.
Proof.
  assert (Hm : create host_1 hello_world_attached
               = inr hello_world_attached_created)
    by (vm_compute; reflexivity).
  destruct (created_fields_are_non_empty host_1 hello_world_attached
              hello_world_attached_created Hm) as (Ht & Hb & Ha & Hkept).
  split; [exact Hm|]. split; [exact Ht|]. split; [exact Hb|].
  split; [exact Ha|].
  apply (Hkept "http://x"%string); reflexivity || discriminate.
Defined.

Lemma search_ignores_query_case_witness :
  search_messages toLowerCase_sample (Some "AT"%string) cat_and_dog
  = search_messages toLowerCase_sample (Some "at"%string) cat_and_dog.
Proof.
  apply (search_ignores_query_case toLowerCase_sample cat_and_dog "AT" "at").
  - exact toLowerCase_sample_ok.
  - reflexivity.
  - apply equal_ignoring_case_spec. reflexivity.
Defined.

Lemma search_narrows_with_longer_query_witness :
  exists results results',
    search_messages toLowerCase_sample (Some "SAT"%string) cat_and_dog
    = (cat_and_dog, res_json (JsonMessages results))
    /\ search_messages toLowerCase_sample (Some "a"%string) cat_and_dog
       = (cat_and_dog, res_json (JsonMessages results'))
    /\ sublist results results'.
Proof.
  apply (search_narrows_with_longer_query toLowerCase_sample cat_and_dog
           "SAT" "a").
  - exact toLowerCase_sample_ok.
  - reflexivity.
  - discriminate.
  - apply includes_lowered_spec. reflexivity.
Defined.

Lemma search_finds_record_by_its_text_witness :
  exists results,
    search_messages toLowerCase_sample (Some "CAT SAT"%string) cat_and_dog
    = (cat_and_dog, res_json (JsonMessages results))
    /\ cat_sat ∈ results.
Proof.
  apply (search_finds_record_by_its_text toLowerCase_sample cat_and_dog
           cat_sat "CAT SAT").
  - exact toLowerCase_sample_ok.
  - rewrite cat_and_dog_values. by left.
  - discriminate.
  - right. right. split; [reflexivity|].
    right. apply equal_ignoring_case_spec. reflexivity.
Defined.

Lemma getCurrentDate_exact_below_2_53_witness :
  getCurrentDate 86400000000001 = 86400000000001 / 1000000.
Proof.
  apply (getCurrentDate_exact_below_2_53 86400000000001).
  split; reflexivity || discriminate.
Defined.

Lemma getCurrentDate_within_one_millisecond_witness :
  reading_before_boundary / 1000000 - 1
  <= getCurrentDate reading_before_boundary
  <= reading_before_boundary / 1000000 + 1.
Proof.
  apply (getCurrentDate_within_one_millisecond reading_before_boundary).
  split; reflexivity || discriminate.
Defined.

Lemma getCurrentDate_monotone_witness :
  getCurrentDate reading_before_boundary
  <= getCurrentDate reading_on_boundary.
Proof.
  apply (getCurrentDate_monotone reading_before_boundary reading_on_boundary).
  - split; discriminate.
  - reflexivity.
Defined.

Lemma stamps_ordered_by_ic_time_witness :
  Sorted Z.le
    (getCurrentDate (ic_time host_1) :: update_stamps one_update)
  /\ stamps_ordered (updated hello_world_created one_update).
Proof.
  apply (stamps_ordered_by_ic_time host_1 hello_world hello_world_created
           one_update).
  - vm_compute. reflexivity.
  - repeat constructor; discriminate.
  - vm_compute. repeat constructor. discriminate.
Defined.

(* ===================================================================== *)
(** ** Scenarios *)
(* ===================================================================== *)

(** Creating [{title: "Hello", body: "World"}] stores a record with the
    generated id, [createdAt] set and [updatedAt] absent. *)
Example scenario_create :
  post_messages host_1 hello_world ∅
  = (<["id-1"%string :=
        {| id := "id-1"; title := "Hello"; body := "World";
           attachmentURL := None;
           createdAt := 1700000000000; updatedAt := None |}]> ∅,
     res_json (JsonMessage
        {| id := "id-1"; title := "Hello"; body := "World";
           attachmentURL := None;
           createdAt := 1700000000000; updatedAt := None |})).
Proof. vm_compute. reflexivity. Qed.

(** A PUT with [{body: "World!"}] addressed to the record just created is
    answered with the 400 error and leaves the record as it was; a DELETE
    then answers with [{Some: record}], and a GET or a second DELETE of the
    same id answers 200 with [{None: null}]. *)
Example scenario_update_delete :
  let s := (post_messages host_1 hello_world ∅).1 in
  put_message host_2 "id-1" new_body s
  = (s, sendError "message.update is not a function" 400)
  /\ run toLowerCase_sample create_then_update ∅ = s
  /\ (delete_message "id-1" s).2
     = res_json (JsonOpt (OptSome hello_world_created))
  /\ get_message "id-1" (delete_message "id-1" s).1
     = (∅, res_json (JsonOpt OptNone))
  /\ delete_message "id-1" (delete_message "id-1" s).1
     = (∅, res_json (JsonOpt OptNone)).
Proof. repeat split; vm_compute; reflexivity. Qed.

(** A PUT addressed to an id that is not stored is answered with 404. *)
Example scenario_update_missing :
  put_message host_2 "id-9" new_body store_with_hello
  = (store_with_hello, sendError "Message with id=id-9 not found." 404).
Proof. vm_compute. reflexivity. Qed.

(** With bodies "cat sat" and "dog ran" stored, searching "at" (in any
    case) returns only the first record, and a query found nowhere returns
    the empty list. *)
Example scenario_search :
  (search_messages toLowerCase_sample (Some "at"%string) cat_and_dog).2
  = res_json (JsonMessages [cat_sat])
  /\ (search_messages toLowerCase_sample (Some "AT"%string) cat_and_dog).2
     = res_json (JsonMessages [cat_sat])
  /\ (search_messages toLowerCase_sample (Some "bird"%string) cat_and_dog).2
     = res_json (JsonMessages []).
Proof. repeat split; vm_compute; reflexivity. Qed.

(** An update with [{title: ""}] goes through, while a creation with the
    same input is rejected. *)
Example scenario_empty_title :
  title (update host_2 hello_world_updated empty_title) = EmptyString
  /\ create host_2 empty_title = inl (Error required_message).
Proof. split; reflexivity. Qed.

(** An input carrying its own id and stamps is given the generated id and
    the clock value all the same. *)
Example scenario_forged_identity :
  create host_1 hello_world_forged = create host_1 hello_world.
Proof. reflexivity. Qed.

(** [GET /messages/search?query=at] on a store that holds "cat sat" goes
    to the get-by-id handler, which answers 200 with [{None: null}]. *)
Example scenario_search_request :
  dispatch search_request = Some (GetOne "search")
  /\ handle toLowerCase_sample host_1 (GetOne "search") cat_and_dog
     = (cat_and_dog, res_json (JsonOpt OptNone)).
Proof. split; vm_compute; reflexivity. Qed.
